(** * SchematicWebViewer: the renderer pipeline and the resource loader

    A shallow embedding of [src/renderer/renderer.ts] and
    [src/resource/resourceLoader.ts].

    - JS [Map]s and [Set]s are [gmap]s and [gset]s keyed by strings.
    - Mesh coordinates are JS numbers; every value the renderer computes is
      an integer or a half-integer, which doubles carry exactly, so they are
      modelled as rationals ([Q]).
    - [async] functions are modelled twice: by the state they leave behind
      when they run without interruption, and by a step relation over
      their suspension points, in which several calls interleave.
    - A thrown exception is an explicit [Faulted] outcome; the mutations done
      before the throw stay in the state. *)

From Stdlib Require Import Ascii String QArith Lqa.
From stdpp Require Import gmap strings pretty list fin_maps.

Local Open Scope string_scope.
Local Open Scope Z_scope.
Local Open Scope list_scope.

(** ** Blocks and their cache key *)

(** A [Block] of schematicjs: [{ type: string; properties: Record<string,string> }].
    [properties] lists the entries of the JS object in the order in which the
    object enumerates its own keys; for names that are not array indices this
    is the order in which the properties were inserted. *)
Record Block := mkBlock {
  type : string;
  properties : list (string * string);
}.

#[global] Instance Block_eq_dec : EqDecision Block.
Proof. solve_decision. Defined.

(** The mapping a property list denotes: the value bound to a name. *)
Fixpoint propertyValue (ps : list (string * string)) (k : string) : option string :=
  match ps with
  | [] => None
  | (k', v) :: rest => if decide (k' = k) then Some v else propertyValue rest k
  end.

(** *** [JSON.stringify] on an object with string values *)

Definition dquote : ascii := "034"%char.
Definition backslash : ascii := "092"%char.

Definition hexDigit (n : N) : ascii :=
  if (n <? 10)%N then ascii_of_N (48 + n) else ascii_of_N (87 + n).

(** One code unit under ECMAScript's QuoteJSONString: the quote and the
    backslash are escaped, control characters get their short escape or
    [\u00xx], everything else is copied. *)
Definition quoteJSONChar (c : ascii) : string :=
  let n := N_of_ascii c in
  if (n =? 34)%N then String backslash (String dquote "")
  else if (n =? 92)%N then String backslash (String backslash "")
  else if (n =? 8)%N then "\b"
  else if (n =? 12)%N then "\f"
  else if (n =? 10)%N then "\n"
  else if (n =? 13)%N then "\r"
  else if (n =? 9)%N then "\t"
  else if (n <? 32)%N then
    "\u00" +:+ String (hexDigit (n / 16)) (String (hexDigit (n mod 16)) "")
  else String c "".

Fixpoint quoteJSONBody (s : string) : string :=
  match s with
  | EmptyString => ""
  | String c rest => quoteJSONChar c +:+ quoteJSONBody rest
  end.

Definition quoteJSONString (s : string) : string :=
  String dquote (quoteJSONBody s +:+ String dquote "").

Definition jsonMember (kv : string * string) : string :=
  quoteJSONString kv.1 +:+ ":" +:+ quoteJSONString kv.2.

Fixpoint jsonMembers (ps : list (string * string)) : string :=
  match ps with
  | [] => ""
  | kv :: rest =>
      jsonMember kv +:+
      match rest with [] => "" | _ :: _ => "," +:+ jsonMembers rest end
  end.

(** [JSON.stringify(block.properties)]. *)
Definition JSON_stringify (ps : list (string * string)) : string :=
  "{" +:+ jsonMembers ps +:+ "}".

(** renderer.ts, lines 132-134. *)
Definition hashBlockForMap (block : Block) : string :=
  type block +:+ ":" +:+ JSON_stringify (properties block).

(** Reading one escaped code unit back; [None] at the closing quote. It is
    the left inverse of [quoteJSONChar] the proofs about keys rest on. *)
Definition hexValue (c : ascii) : option N :=
  let n := N_of_ascii c in
  if ((48 <=? n) && (n <=? 57))%N then Some (n - 48)%N
  else if ((97 <=? n) && (n <=? 102))%N then Some (n - 87)%N
  else None.

Definition unquoteJSONChar (s : string) : option (ascii * string) :=
  match s with
  | EmptyString => None
  | String c rest =>
      if (N_of_ascii c =? 34)%N then None
      else if (N_of_ascii c =? 92)%N then
        match rest with
        | String e rest' =>
            if (N_of_ascii e =? 34)%N then Some (dquote, rest')
            else if (N_of_ascii e =? 92)%N then Some (backslash, rest')
            else if (N_of_ascii e =? 98)%N then Some ("008"%char, rest')
            else if (N_of_ascii e =? 102)%N then Some ("012"%char, rest')
            else if (N_of_ascii e =? 110)%N then Some ("010"%char, rest')
            else if (N_of_ascii e =? 114)%N then Some ("013"%char, rest')
            else if (N_of_ascii e =? 116)%N then Some ("009"%char, rest')
            else if (N_of_ascii e =? 117)%N then
              match rest' with
              | String _ (String _ (String h (String l rest''))) =>
                  match hexValue h, hexValue l with
                  | Some a, Some b => Some (ascii_of_N (16 * a + b), rest'')
                  | _, _ => None
                  end
              | _ => None
              end
            else None
        | EmptyString => None
        end
      else Some (c, rest)
  end.

(** Renderings are recognised, one character at a time, by a small
    automaton. It only serves to tell keys of different types apart: run
    from two places of one string, it cannot accept at both. *)
Inductive JState :=
  | JStart | JOpen | JKey | JKeyEsc | JAfterKey | JColon
  | JVal | JValEsc | JAfterVal | JComma | JDone.

Inductive JClass :=
  | CQuote | CBackslash | CLeftBrace | CRightBrace | CColon | CComma | COther.

Definition classify (c : ascii) : JClass :=
  let n := N_of_ascii c in
  if (n =? 34)%N then CQuote
  else if (n =? 92)%N then CBackslash
  else if (n =? 123)%N then CLeftBrace
  else if (n =? 125)%N then CRightBrace
  else if (n =? 58)%N then CColon
  else if (n =? 44)%N then CComma
  else COther.

Definition jdelta (q : JState) (k : JClass) : option JState :=
  match q, k with
  | JStart, CLeftBrace => Some JOpen
  | JOpen, CQuote => Some JKey
  | JOpen, CRightBrace => Some JDone
  | JKey, CQuote => Some JAfterKey
  | JKey, CBackslash => Some JKeyEsc
  | JKey, _ => Some JKey
  | JKeyEsc, _ => Some JKey
  | JAfterKey, CColon => Some JColon
  | JColon, CQuote => Some JVal
  | JVal, CQuote => Some JAfterVal
  | JVal, CBackslash => Some JValEsc
  | JVal, _ => Some JVal
  | JValEsc, _ => Some JVal
  | JAfterVal, CComma => Some JComma
  | JAfterVal, CRightBrace => Some JDone
  | JComma, CQuote => Some JKey
  | _, _ => None
  end.

Fixpoint jrun (q : JState) (s : string) : option JState :=
  match s with
  | EmptyString => Some q
  | String c rest =>
      match jdelta q (classify c) with
      | Some q' => jrun q' rest
      | None => None
      end
  end.

(** The pairs of states two runs over one string can be in, the first
    started inside a rendering and the second at the start of one: one of
    them is inside a string whenever the other is not. *)
Definition apart (a b : JState) : bool :=
  match a, b with
  | JKey, (JStart | JOpen | JAfterVal | JComma | JDone | JAfterKey | JColon)
  | JVal, (JStart | JOpen | JAfterVal | JComma | JDone | JAfterKey | JColon)
  | (JAfterKey | JColon | JAfterVal | JComma | JDone), (JKey | JVal)
  | JColon, JStart => true
  | _, _ => false
  end.

(** ** Structures (schematicjs, an external package) *)

Definition BlockVector3 : Type := Z * Z * Z.

Module Schematic.
Record t := mk {
  width : Z;
  height : Z;
  length : Z;
  blockTypes : list Block;
  blocks : gmap (Z * Z * Z) Block;
}.
End Schematic.

Definition contains (s : Schematic.t) (pos : BlockVector3) : bool :=
  let '(x, y, z) := pos in
  (0 <=? x) && (x <? Schematic.width s) &&
  (0 <=? y) && (y <? Schematic.height s) &&
  (0 <=? z) && (z <? Schematic.length s).

(** Modelled from the spec: schematicjs's [getBlock] is not under src/. The
    spec's structure source gives [getBlock(position) -> Block | empty] on a
    grid bounded by the declared width, height and length, 0-indexed; a
    position outside the grid holds nothing. *)
Definition getBlock (s : Schematic.t) (pos : BlockVector3) : option Block :=
  if contains s pos then Schematic.blocks s !! pos else None.

(** Modelled from the spec: the structure's iterator ([for (const pos of
    loadedSchematic)]) is not under src/; it enumerates every position of
    the grid once. *)
Definition positions (s : Schematic.t) : list BlockVector3 :=
  y ← seqZ 0 (Schematic.height s);
  z ← seqZ 0 (Schematic.length s);
  x ← seqZ 0 (Schematic.width s);
  [(x, y, z)].

(** Modelled from the spec: [POSSIBLE_FACES] and [faceToFacingVector] live in
    model/types and utils, not under src/. The spec names the six
    axis-aligned face neighbours: up, down, north, south, east, west. *)
Inductive Face := south | north | east | west | up | down.

Definition POSSIBLE_FACES : list Face := [south; north; east; west; up; down].

Definition faceToFacingVector (face : Face) : Z * Z * Z :=
  match face with
  | up => (0, 1, 0)
  | down => (0, -1, 0)
  | north => (0, 0, -1)
  | south => (0, 0, 1)
  | east => (1, 0, 0)
  | west => (-1, 0, 0)
  end.

(** ** Meshes and the scene (Babylon, seen through the calls the renderer makes) *)

Module Vector3.
Record t := mk { x : Q; y : Q; z : Q }.
End Vector3.

#[global] Instance Q_eq_dec : EqDecision Q.
Proof. solve_decision. Defined.

#[global] Instance Vector3_eq_dec : EqDecision Vector3.t.
Proof. solve_decision. Defined.

(** A mesh object is identified with its content. [instanced] is the outcome
    of [mesh instanceof InstancedMesh]. *)
Record Mesh := mkMesh {
  name : string;
  instanced : bool;
  position : Vector3.t;
  worldMatrixFrozen : bool;
}.

#[global] Instance Mesh_eq_dec : EqDecision Mesh.
Proof. solve_decision. Defined.

Record Scene := mkScene {
  meshes : list Mesh;                  (* scene.meshes, in array order *)
  disposedMeshes : list Mesh;          (* every mesh dispose() was called on *)
  blockMaterialDirtyMechanism : bool;
  materialsFrozen : bool;
  renderedFrames : nat;                (* calls of scene.render() *)
}.

Definition setMeshes (sc : Scene) (ms : list Mesh) : Scene :=
  mkScene ms (disposedMeshes sc) (blockMaterialDirtyMechanism sc)
    (materialsFrozen sc) (renderedFrames sc).

Definition setBlockMaterialDirtyMechanism (sc : Scene) (b : bool) : Scene :=
  mkScene (meshes sc) (disposedMeshes sc) b (materialsFrozen sc) (renderedFrames sc).

Definition freezeMaterials (sc : Scene) : Scene :=
  mkScene (meshes sc) (disposedMeshes sc) (blockMaterialDirtyMechanism sc) true
    (renderedFrames sc).

Definition sceneRender (sc : Scene) : Scene :=
  mkScene (meshes sc) (disposedMeshes sc) (blockMaterialDirtyMechanism sc)
    (materialsFrozen sc) (S (renderedFrames sc)).

(** [array.splice(array.indexOf(m), 1)] when [m] is in the array. *)
Fixpoint removeFirst (m : Mesh) (ms : list Mesh) : list Mesh :=
  match ms with
  | [] => []
  | m' :: rest => if decide (m' = m) then rest else m' :: removeFirst m rest
  end.

Definition addMesh (sc : Scene) (m : Mesh) : Scene :=
  setMeshes sc (meshes sc ++ [m]).

Definition removeMesh (sc : Scene) (m : Mesh) : Scene :=
  setMeshes sc (removeFirst m (meshes sc)).

(** [mesh.dispose()]: the mesh leaves its scene, if it is still there, and
    is released. *)
Definition dispose (sc : Scene) (m : Mesh) : Scene :=
  mkScene (removeFirst m (meshes sc)) (disposedMeshes sc ++ [m])
    (blockMaterialDirtyMechanism sc) (materialsFrozen sc) (renderedFrames sc).

(** What the loop of lines 347-350 does to the mesh array: each mesh of
    [xs] is taken out by [removeMesh] and once more, if it is still there, by
    its own [dispose]. *)
Definition removeEach (xs l : list Mesh) : list Mesh :=
  foldl (λ l m, removeFirst m (removeFirst m l)) l xs.

(** renderer.ts, lines 195-219: the ground grid, a plain mesh named
    'ground' at height [gridHeight]. *)
Definition groundMesh (gridHeight : Q) : Mesh :=
  mkMesh "ground" false (Vector3.mk 0 gridHeight 0) false.

Definition addGrid (sc : Scene) (gridHeight : Q) : Scene :=
  addMesh sc (groundMesh gridHeight).

(** The structure is centred on the origin: [-dimension / 2 + 0.5]. *)
Definition centreOffset (dimension : Z) : Q :=
  (- inject_Z dimension / 2 + (1 # 2))%Q.

(** renderer.ts, lines 185-188: a fragment of the voxel at [(x, y, z)] is
    moved by the offset plus the voxel's coordinate, then frozen. *)
Definition placeMesh (xTranslation yTranslation zTranslation : Q)
    (pos : BlockVector3) (mesh : Mesh) : Mesh :=
  let '(x, y, z) := pos in
  mkMesh (name mesh) (instanced mesh)
    (Vector3.mk
       (Vector3.x (position mesh) + (xTranslation + inject_Z x))%Q
       (Vector3.y (position mesh) + (yTranslation + inject_Z y))%Q
       (Vector3.z (position mesh) + (zTranslation + inject_Z z))%Q)
    true.

(** renderer.ts, lines 181-190: the loop over the meshes [getModel] gave,
    null entries skipped. *)
Definition addPlacedMeshes (xTranslation yTranslation zTranslation : Q)
    (pos : BlockVector3) (sc : Scene) (ms : list (option Mesh)) : Scene :=
  foldl (λ sc m,
           match m with
           | None => sc
           | Some mesh =>
               addMesh sc (placeMesh xTranslation yTranslation zTranslation pos mesh)
           end) sc ms.

(** ** The resource loader (resourceLoader.ts) *)

Module ResourceLoader.

(** A loaded archive: entry path to content. *)
Abbreviation JSZip := (gmap string string).

(** [loadZip]: one archive for a single URL, an array for an array of URLs. *)
Inductive Zip :=
  | Single (z : JSZip)
  | Many (zs : list JSZip).

Record Blob := mkBlob { blobData : string }.

Record t := mk {
  zip : Zip;
  stringCache : gmap string (option string);
  blobCache : gmap string (option string);
  objectURLs : gmap string Blob;       (* what URL.createObjectURL handed out *)
}.

Definition assetPath (name : string) : string := "assets/minecraft/" +:+ name.

(** [zipFile.file(path)?.async('string')] and [...?.async('blob')]. *)
Definition fileString (z : JSZip) (path : string) : option string := z !! path.
Definition fileBlob (z : JSZip) (path : string) : option Blob := mkBlob <$> z !! path.

(** JS truthiness of the value read: [undefined] and the empty string are
    falsy; a Blob is an object and always truthy. *)
Definition truthyString (data : option string) : bool :=
  match data with
  | Some s => negb (String.eqb s "")
  | None => false
  end.

Definition truthyBlob (data : option Blob) : bool :=
  match data with Some _ => true | None => false end.

(** Lines 47-55: [data] is assigned in every round and the loop breaks on
    the first truthy value; after the loop [data] is what the last round
    read. *)
Fixpoint scanBlob (zs : list JSZip) (path : string) (data : option Blob) : option Blob :=
  match zs with
  | [] => data
  | zipFile :: rest =>
      let data := fileBlob zipFile path in
      if truthyBlob data then data else scanBlob rest path data
  end.

(** Lines 78-85. *)
Fixpoint scanString (zs : list JSZip) (path : string) (data : option string) : option string :=
  match zs with
  | [] => data
  | zipFile :: rest =>
      let data := fileString zipFile path in
      if truthyString data then data else scanString rest path data
  end.

Definition createObjectURL (ld : t) : string :=
  "blob:" +:+ pretty (size (objectURLs ld)).

(** Lines 37-70. *)
Definition getResourceBlob (ld : t) (name : string) : option string * t :=
  match blobCache ld !! name with
  | Some cached => (cached, ld)
  | None =>
      let data :=
        match zip ld with
        | Many zs => scanBlob zs (assetPath name) None
        | Single z => fileBlob z (assetPath name)
        end in
      match data with
      | None =>
          (None, mk (zip ld) (stringCache ld) (<[name := None]> (blobCache ld))
                   (objectURLs ld))
      | Some blob =>
          let url := createObjectURL ld in
          (Some url, mk (zip ld) (stringCache ld) (<[name := Some url]> (blobCache ld))
                       (<[url := blob]> (objectURLs ld)))
      end
  end.

(** Lines 72-94. *)
Definition getResourceString (ld : t) (name : string) : option string * t :=
  match stringCache ld !! name with
  | Some cached => (cached, ld)
  | None =>
      let data :=
        match zip ld with
        | Many zs => scanString zs (assetPath name) None
        | Single z => fileString z (assetPath name)
        end in
      (data, mk (zip ld) (<[name := data]> (stringCache ld)) (blobCache ld)
               (objectURLs ld))
  end.

(** Lines 96-99. *)
Definition clearCache (ld : t) : t :=
  mk (zip ld) ∅ ∅ (objectURLs ld).

(** [getResourceLoader]: both caches start empty. *)
Definition getResourceLoader (z : Zip) : t := mk z ∅ ∅ ∅.

(** The precedence policy in the spec's words: the entry of the first
    archive of the list that defines [path]. *)
Fixpoint firstDefined (zs : list JSZip) (path : string) : option string :=
  match zs with
  | [] => None
  | z :: rest =>
      match z !! path with
      | Some content => Some content
      | None => firstDefined rest path
      end
  end.

End ResourceLoader.

(** ** The resource loader in use *)

Section LoaderUse.
Import ResourceLoader.

(** A call of one of the three functions a loader hands out. *)
Inductive Request :=
  | GetString (name : string)
  | GetBlob (name : string)
  | ClearCache.

Definition serve (ld : t) (r : Request) : t :=
  match r with
  | GetString name => (getResourceString ld name).2
  | GetBlob name => (getResourceBlob ld name).2
  | ClearCache => clearCache ld
  end.

Definition serveAll (ld : t) (rs : list Request) : t := foldl serve ld rs.

(** What lines 78-90 and 44-61 read from the archives on a cache miss. *)
Definition archiveText (z : Zip) (path : string) : option string :=
  match z with
  | Many zs => scanString zs path None
  | Single z => fileString z path
  end.

Definition archiveBlob (z : Zip) (path : string) : option Blob :=
  match z with
  | Many zs => scanBlob zs path None
  | Single z => fileBlob z path
  end.

(** The entry a path stands for under the precedence policy: the one
    archive's, or the first defining archive's. *)
Definition firstEntry (z : Zip) (path : string) : option string :=
  match z with
  | Many zs => firstDefined zs path
  | Single z => z !! path
  end.

(** The caches of a loader over [z] hold what the archives hold, and every
    URL handed out is registered under a number below the next one. *)
Definition cachesAgree (z : Zip) (ld : t) : Prop :=
  zip ld = z ∧
  (∀ name v, stringCache ld !! name = Some v → v = archiveText z (assetPath name)) ∧
  (∀ name v, blobCache ld !! name = Some v →
     match v with
     | None => archiveBlob z (assetPath name) = None
     | Some url =>
         ∃ blob, archiveBlob z (assetPath name) = Some blob ∧
                 objectURLs ld !! url = Some blob
     end) ∧
  (∀ url, is_Some (objectURLs ld !! url) →
     ∃ k, (k < base.size (objectURLs ld))%nat ∧ url = "blob:" +:+ pretty k).

(** *** Where the archives come from *)

Section Archives.

(** [JSZip.loadAsync] of what [fetch(url)] gives; [None] when the request
    or the archive fails and the promise is rejected. *)
Variable fetchZip : string → option JSZip.

(** resourceLoader.ts, lines 9-25. [Promise.all] is rejected as soon as one
    of its promises is. *)
Definition loadZip (jarUrl : string + list string) : option Zip :=
  match jarUrl with
  | inr urls => Many <$> mapM fetchZip urls
  | inl url => Single <$> fetchZip url
  end.

(** Lines 27-31 and 101-105: [getResourceLoader] from its URLs. *)
Definition getResourceLoaderFromUrls (jarUrl : string + list string) : option t :=
  getResourceLoader <$> loadZip jarUrl.

(** renderer.ts, lines 265-271: the loader of a session, over the client
    jar followed by the resource packs. *)
Definition sessionResourceLoader (clientJarUrl : string)
    (resourcePacks : option (list string)) : option t :=
  getResourceLoaderFromUrls (inr (clientJarUrl :: default [] resourcePacks)).

End Archives.

End LoaderUse.

(** ** The scene's colour and camera (renderer.ts, lines 56-101) *)

(** [Number.prototype.toString(16)] on an integer: lower-case digits, most
    significant first, no leading zero, a minus sign for a negative number. *)
Fixpoint hexDigits (fuel : nat) (n : Z) : string :=
  match fuel with
  | O => ""
  | S fuel =>
      if n <? 16 then String (hexDigit (Z.to_N n)) ""
      else hexDigits fuel (n / 16) +:+ String (hexDigit (Z.to_N (n mod 16))) ""
  end.

Definition toString16 (n : Z) : string :=
  if n <? 0 then "-" +:+ hexDigits (S (Z.to_nat (Z.log2 (- n)))) (- n)
  else hexDigits (S (Z.to_nat (Z.log2 n))) n.

(** [backgroundColor: number | string]. *)
Inductive BackgroundColor :=
  | ColorNumber (n : Z)
  | ColorString (s : string).

(** [color.toString(16)]: a string is its own [toString], whatever the
    argument. *)
Definition colorToString16 (color : BackgroundColor) : string :=
  match color with
  | ColorNumber n => toString16 n
  | ColorString s => s
  end.

(** What [scene.clearColor] is set to: the colour Babylon reads from a hex
    string, or the components given. *)
Inductive ClearColor :=
  | FromHexString (hex : string)
  | Color4 (r g b a : Q).

(** Lines 82-88. *)
Definition setSceneColor (color : BackgroundColor) : ClearColor :=
  match color with
  | ColorString "transparent" => Color4 0 0 0 0
  | _ => FromHexString ("#" +:+ colorToString16 color +:+ "FF")
  end.

(** Lines 56-74. The angles are kept as multiples of pi; the radius 10 of
    the constructor is overwritten at line 70. *)
Record ArcRotateCamera := mkCamera {
  alphaOverPi : Q;
  betaOverPi : Q;
  radius : Q;
  target : Vector3.t;
  wheelPrecision : Q;
}.

Definition getCameraSetup (cameraOffset : Q) : ArcRotateCamera :=
  mkCamera (- (1 # 2)) (2 # 5) (cameraOffset * 3) (Vector3.mk 0 0 0) 50.

(** ** The renderer (renderer.ts) *)

Inductive Outcome := Completed | Faulted.

(** The options of [renderSchematic] that reach the modelled state. *)
Record SchematicRenderOptions := mkOptions {
  size : option (Z * Z);
  renderArrow : bool;
  renderBars : bool;
  disableAutoRender : bool;
}.

Definition emptyScene : Scene := mkScene [] [] false false 0.

Section Renderer.

(** What renderer.ts imports from modules that are not under src/
    (./utils, ./model/loader, ./model/parser, ./shapes, schematicjs and
    Babylon) is taken as it is used at the call sites. *)
Context {BlockStateDefinition ModelHolder BlockModelOption ModelCache : Type}.

(** [BlockModelData] of model/types: only [models.length] is looked at. *)
Record BlockModelData := mkBlockModelData { models : list ModelHolder }.

Variable INVISIBLE_BLOCKS : gset string.
Variable NON_OCCLUDING_BLOCKS : gset string.
(** [loadSchematic(parseNbt(schematic))]; [None] when either throws. *)
Variable loadSchematic : string → option Schematic.t.
(** The two awaited calls, [loadBlockStateDefinition] (line 117) and
    [getModel] (line 180), are taken to return. A fetch that is rejected or
    a throw inside them would end the caller at that [await]; this is not
    modelled, and what is proved of a load or swap that completes is about
    one in which every awaited call returned. *)
Variable loadBlockStateDefinition : string → BlockStateDefinition.
Variable getBlockModelData : Block → BlockStateDefinition → BlockModelData.
(** [modelLoader.getModelOption(modelData)] (line 179), taken as a function
    of the model data. Which of several variants the loader picks is its
    own matter; a pick that is drawn anew at each call is not modelled, and
    [getModelOption modelData] reads: the option picked for that voxel. *)
Variable getModelOption : BlockModelData → BlockModelOption.
(** [modelLoader.getModel(option, block, scene)]: the loader is handed the
    scene. It gives the meshes of one voxel, some of them possibly null, and
    leaves the scene and its own cache as it sees fit: what it creates in
    the scene on its own account (Babylon's constructors register a mesh in
    the scene they are given) is in the scene it returns. *)
Variable getModel :
  BlockModelOption → Block → Scene → ModelCache →
  list (option Mesh) * Scene * ModelCache.
(** [modelLoader.clearCache()] leaves the loader with this cache. *)
Variable emptyModelCache : ModelCache.
(** What [engine.dispose()] does to the scene attached to the engine.
    Babylon is not under src/: its engine disposes its scenes and with them
    every mesh, and a theorem that counts on it has it as a premise. *)
Variable engineDispose : Scene → Scene.
Variable addArrowToScene : Scene → Q → Scene.
Variable addBarsToScene : Scene → Q → Z → Z → Z → Scene.

(** The state a session keeps in the closure of [renderSchematic].
    [resolutions] is a ghost log: one entry per call of
    [loadBlockStateDefinition] and [getBlockModelData], in call order. *)
Record Session := mkSession {
  blockModelLookup : gmap string BlockModelData;
  modelCache : ModelCache;
  scene : Scene;
  hasDestroyed : bool;
  engineDisposed : bool;
  engineSize : option (Z * Z);
  renderLoop : bool;
  resolutions : list Block;
}.

Definition setScene (ses : Session) (sc : Scene) : Session :=
  mkSession (blockModelLookup ses) (modelCache ses) sc (hasDestroyed ses)
    (engineDisposed ses) (engineSize ses) (renderLoop ses) (resolutions ses).

Definition setEngineSize (ses : Session) (w h : Z) : Session :=
  mkSession (blockModelLookup ses) (modelCache ses) (scene ses) (hasDestroyed ses)
    (engineDisposed ses) (Some (w, h)) (renderLoop ses) (resolutions ses).

(** *** Population of the lookup (lines 103-130) *)

Definition resolveBlock (block : Block) : BlockModelData :=
  getBlockModelData block (loadBlockStateDefinition (type block)).

(** Lines 117-127, what a round does once the state definition has
    arrived: the block is resolved and, with at least one model, set. *)
Definition resolveAndSet (st : gmap string BlockModelData * list Block) (block : Block)
    : gmap string BlockModelData * list Block :=
  let '(blockModelLookup, log) := st in
  let blockModelData := resolveBlock block in
  match models blockModelData with
  | [] => (blockModelLookup, log ++ [block])
  | _ :: _ =>
      (<[hashBlockForMap block := blockModelData]> blockModelLookup, log ++ [block])
  end.

(** One round of the loop over [blockTypes]. *)
Definition lookupStep (st : gmap string BlockModelData * list Block) (block : Block)
    : gmap string BlockModelData * list Block :=
  if decide (type block ∈ INVISIBLE_BLOCKS) then st
  else
    match st.1 !! hashBlockForMap block with
    | Some _ => st
    | None => resolveAndSet st block
    end.

Definition updateBlockModelLookup (blockModelLookup : gmap string BlockModelData)
    (log : list Block) (loadedSchematic : Schematic.t)
    : gmap string BlockModelData * list Block :=
  foldl lookupStep (blockModelLookup, log) (Schematic.blockTypes loadedSchematic).

(** *** Assembly (lines 136-193) *)

(** Lines 165-170: the test made on the neighbour across [face]. *)
Definition exposing (s : Schematic.t) (pos : BlockVector3) (face : Face) : bool :=
  let '(x, y, z) := pos in
  let '(dx, dy, dz) := faceToFacingVector face in
  match getBlock s (x + dx, y + dy, z + dz) with
  | None => true
  | Some offBlock => bool_decide (type offBlock ∈ NON_OCCLUDING_BLOCKS)
  end.

(** Lines 162-174: the loop over the faces with its [break]. The result is
    [anyVisible] and the faces whose neighbour was fetched, in order. *)
Fixpoint faceLoop (s : Schematic.t) (pos : BlockVector3) (faces : list Face)
    : bool * list Face :=
  match faces with
  | [] => (false, [])
  | face :: rest =>
      if exposing s pos face then (true, [face])
      else let '(anyVisible, seen) := faceLoop s pos rest in (anyVisible, face :: seen)
  end.

(** Lines 152-178: the voxel gets past every [continue]; the result is the
    block and the model data handed to the model loader. *)
Definition voxelModel (loadedSchematic : Schematic.t)
    (blockModelLookup : gmap string BlockModelData) (pos : BlockVector3)
    : option (Block * BlockModelData) :=
  match getBlock loadedSchematic pos with
  | None => None
  | Some block =>
      if decide (type block ∈ INVISIBLE_BLOCKS) then None
      else
        match blockModelLookup !! hashBlockForMap block with
        | None => None
        | Some modelData =>
            if (faceLoop loadedSchematic pos POSSIBLE_FACES).1
            then Some (block, modelData)
            else None
        end
  end.

(** Lines 180-190, what a round does with the meshes of its voxel once
    [getModel] has returned: they are added to the scene the loader left. *)
Definition materialise (xTranslation yTranslation zTranslation : Q)
    (st : Scene * ModelCache) (pos : BlockVector3) (block : Block)
    (option : BlockModelOption) : Scene * ModelCache :=
  let '(ms, sc, cache) := getModel option block st.1 st.2 in
  (addPlacedMeshes xTranslation yTranslation zTranslation pos sc ms, cache).

(** One round of the loop over the positions. *)
Definition voxelStep (loadedSchematic : Schematic.t)
    (blockModelLookup : gmap string BlockModelData)
    (xTranslation yTranslation zTranslation : Q)
    (st : Scene * ModelCache) (pos : BlockVector3) : Scene * ModelCache :=
  match voxelModel loadedSchematic blockModelLookup pos with
  | None => st
  | Some (block, modelData) =>
      let option := getModelOption modelData in
      materialise xTranslation yTranslation zTranslation st pos block option
  end.

Definition computeSchematicMesh (loadedSchematic : Schematic.t)
    (blockModelLookup : gmap string BlockModelData) (st : Scene * ModelCache)
    (worldWidth worldHeight worldLength : Z) : Scene * ModelCache :=
  let xTranslation := centreOffset worldWidth in
  let yTranslation := centreOffset worldHeight in
  let zTranslation := centreOffset worldLength in
  let st := (setBlockMaterialDirtyMechanism st.1 true, st.2) in
  let st :=
    foldl (voxelStep loadedSchematic blockModelLookup
             xTranslation yTranslation zTranslation)
      st (positions loadedSchematic) in
  (setBlockMaterialDirtyMechanism st.1 false, st.2).

(** *** The session (lines 221-408) *)

Definition gridHeight (worldHeight : Z) : Q := (- inject_Z worldHeight / 2)%Q.

Definition cameraOffset (s : Schematic.t) : Q :=
  (inject_Z (Z.max (Z.max (Schematic.width s) (Schematic.length s))
               (Schematic.height s)) / 2 + 1)%Q.

(** [renderSchematic]: the first load. Nothing is cached when the input
    does not parse. *)
Definition renderSchematic (schematic : string) (opts : SchematicRenderOptions)
    : option Session :=
  match loadSchematic schematic with
  | None => None
  | Some loaded =>
      let '(lookup, log) := updateBlockModelLookup ∅ [] loaded in
      let sc := addGrid emptyScene (gridHeight (Schematic.height loaded)) in
      let '(sc, cache) :=
        computeSchematicMesh loaded lookup (sc, emptyModelCache)
          (Schematic.width loaded) (Schematic.height loaded)
          (Schematic.length loaded) in
      let sc := if renderArrow opts then addArrowToScene sc (cameraOffset loaded) else sc in
      let sc :=
        if renderBars opts
        then addBarsToScene sc (cameraOffset loaded) (Schematic.width loaded)
               (Schematic.height loaded) (Schematic.length loaded)
        else sc in
      Some (mkSession lookup cache (freezeMaterials sc) false false (size opts)
              (negb (disableAutoRender opts)) log)
  end.

(** Lines 343-350. *)
Definition purgeInstancedMeshes (sc : Scene) : Scene :=
  foldl (λ sc instancedMesh, dispose (removeMesh sc instancedMesh) instancedMesh)
    sc (List.filter instanced (meshes sc)).

(** Lines 343-360, the part of [swapSchematic] that runs before its first
    [await]. [None] stands for a throw: the input does not parse, or no
    mesh is named 'ground' and [groundMesh.dispose()] is a TypeError. *)
Definition swapBegin (ses : Session) (newSchematicString : string)
    : Session * option Schematic.t :=
  let sc := purgeInstancedMeshes (scene ses) in
  let ses :=
    mkSession (blockModelLookup ses) emptyModelCache sc (hasDestroyed ses)
      (engineDisposed ses) (engineSize ses) (renderLoop ses) (resolutions ses) in
  match loadSchematic newSchematicString with
  | None => (ses, None)
  | Some newLoadedSchematic =>
      match List.find (λ mesh, String.eqb (name mesh) "ground") (meshes sc) with
      | None => (ses, None)
      | Some ground =>
          (setScene ses
             (addGrid (dispose sc ground)
                (gridHeight (Schematic.height newLoadedSchematic))),
           Some newLoadedSchematic)
      end
  end.

(** Lines 361-366. *)
Definition swapPopulate (ses : Session) (newLoadedSchematic : Schematic.t) : Session :=
  let '(lookup, log) :=
    updateBlockModelLookup (blockModelLookup ses) (resolutions ses)
      newLoadedSchematic in
  mkSession lookup (modelCache ses) (scene ses) (hasDestroyed ses)
    (engineDisposed ses) (engineSize ses) (renderLoop ses) log.

(** Lines 368-380. *)
Definition swapAssemble (ses : Session) (newLoadedSchematic : Schematic.t) : Session :=
  let '(sc, cache) :=
    computeSchematicMesh newLoadedSchematic (blockModelLookup ses)
      (scene ses, modelCache ses)
      (Schematic.width newLoadedSchematic) (Schematic.height newLoadedSchematic)
      (Schematic.length newLoadedSchematic) in
  mkSession (blockModelLookup ses) cache (freezeMaterials sc) (hasDestroyed ses)
    (engineDisposed ses) (engineSize ses) true (resolutions ses).

(** [swapSchematic] awaited on its own, no other call in between. *)
Definition swapSchematic (ses : Session) (newSchematicString : string)
    : Session * Outcome :=
  match swapBegin ses newSchematicString with
  | (ses, None) => (ses, Faulted)
  | (ses, Some newLoadedSchematic) =>
      (swapAssemble (swapPopulate ses newLoadedSchematic) newLoadedSchematic,
       Completed)
  end.

(** Lines 289-294. *)
Definition render (ses : Session) : Session :=
  if hasDestroyed ses then ses else setScene ses (sceneRender (scene ses)).

(** Lines 399-402. A disposed engine runs no render loop. *)
Definition destroy (ses : Session) : Session :=
  mkSession (blockModelLookup ses) (modelCache ses) (engineDispose (scene ses))
    true true (engineSize ses) false (resolutions ses).

(** Lines 393-398. *)
Definition resize (ses : Session) (size : Z) : Session := setEngineSize ses size size.
Definition setSize (ses : Session) (width height : Z) : Session :=
  setEngineSize ses width height.

(** *** Calls in flight

    [swapSchematic] is an [async] function: it runs up to its first [await]
    when it is called and goes on later, one stretch from [await] to
    [await] at a time, while the caller, the render loop and other swaps go
    on in between. A swap in flight is suspended at one of four places:
    - lines 117-120, in the population loop, waiting for the state
      definition of a block type that got past the tests of lines 110-116;
    - line 361, the population has returned;
    - line 180, in the assembly loop, waiting for the meshes of a voxel that
      got past the tests of lines 154-178;
    - line 368, the assembly has returned.
    What an awaited call does of its own (the resource loader and the model
    loader have [await]s of their own) is taken to happen when the [await]
    returns. *)
Inductive SwapTask :=
  | Resolving (new : Schematic.t) (block : Block) (rest : list Block)
  | Populated (new : Schematic.t)
  | Materialising (new : Schematic.t) (pos : BlockVector3) (block : Block)
      (option : BlockModelOption) (rest : list BlockVector3)
  | Assembled (new : Schematic.t).

(** Lines 109-116: the population loop passes over the invisible and the
    cached types, up to the next type it has to resolve. *)
Fixpoint nextToResolve (blockModelLookup : gmap string BlockModelData)
    (blocks : list Block) : option (Block * list Block) :=
  match blocks with
  | [] => None
  | block :: rest =>
      if decide (type block ∈ INVISIBLE_BLOCKS) then nextToResolve blockModelLookup rest
      else
        match blockModelLookup !! hashBlockForMap block with
        | Some _ => nextToResolve blockModelLookup rest
        | None => Some (block, rest)
        end
  end.

(** Lines 150-179: the assembly loop passes over the voxels that need no
    geometry, up to the next voxel it asks the model loader for. *)
Fixpoint nextToMaterialise (new : Schematic.t)
    (blockModelLookup : gmap string BlockModelData) (ps : list BlockVector3)
    : option (BlockVector3 * Block * BlockModelData * list BlockVector3) :=
  match ps with
  | [] => None
  | pos :: rest =>
      match voxelModel new blockModelLookup pos with
      | Some (block, modelData) => Some (pos, block, modelData, rest)
      | None => nextToMaterialise new blockModelLookup rest
      end
  end.

Definition setPopulation (ses : Session)
    (st : gmap string BlockModelData * list Block) : Session :=
  mkSession st.1 (modelCache ses) (scene ses) (hasDestroyed ses)
    (engineDisposed ses) (engineSize ses) (renderLoop ses) st.2.

Definition setAssembly (ses : Session) (st : Scene * ModelCache) : Session :=
  mkSession (blockModelLookup ses) st.2 st.1 (hasDestroyed ses)
    (engineDisposed ses) (engineSize ses) (renderLoop ses) (resolutions ses).

(** The population loop goes on over [blocks] to its next [await], or to
    its end. *)
Definition populateFrom (new : Schematic.t) (ses : Session) (blocks : list Block)
    : SwapTask :=
  match nextToResolve (blockModelLookup ses) blocks with
  | Some (block, rest) => Resolving new block rest
  | None => Populated new
  end.

(** The assembly loop goes on over [ps] to its next [await], or to its end
    (line 192). *)
Definition assembleFrom (new : Schematic.t) (ses : Session) (ps : list BlockVector3)
    : Session * SwapTask :=
  match nextToMaterialise new (blockModelLookup ses) ps with
  | Some (pos, block, modelData, rest) =>
      (ses, Materialising new pos block (getModelOption modelData) rest)
  | None =>
      (setScene ses (setBlockMaterialDirtyMechanism (scene ses) false), Assembled new)
  end.

(** Lines 378-380. *)
Definition swapEnd (ses : Session) : Session :=
  mkSession (blockModelLookup ses) (modelCache ses) (freezeMaterials (scene ses))
    (hasDestroyed ses) (engineDisposed ses) (engineSize ses) true (resolutions ses).

(** A swap in flight goes on from its [await] to the next one; [None] when
    it has run to its end. *)
Definition resumeTask (ses : Session) (task : SwapTask) : Session * option SwapTask :=
  match task with
  | Resolving new block rest =>
      let ses :=
        setPopulation ses
          (resolveAndSet (blockModelLookup ses, resolutions ses) block) in
      (ses, Some (populateFrom new ses rest))
  | Populated new =>
      let ses := setScene ses (setBlockMaterialDirtyMechanism (scene ses) true) in
      let '(ses, task) := assembleFrom new ses (positions new) in
      (ses, Some task)
  | Materialising new pos block option rest =>
      let ses :=
        setAssembly ses
          (materialise (centreOffset (Schematic.width new))
             (centreOffset (Schematic.height new))
             (centreOffset (Schematic.length new))
             (scene ses, modelCache ses) pos block option) in
      let '(ses, task) := assembleFrom new ses rest in
      (ses, Some task)
  | Assembled new => (swapEnd ses, None)
  end.

Record Async := mkAsync {
  session : Session;
  inflight : list SwapTask;
}.

Inductive Event :=
  | Call (newSchematicString : string)   (* handles.swapSchematic(...) *)
  | Resume (i : nat)                      (* the i-th swap in flight goes on *)
  | Frame                                 (* handles.render() *)
  | Destroy                               (* handles.destroy() *)
  | Resize (size : Z)
  | SetSize (width height : Z).

Definition step (a : Async) (e : Event) : Async :=
  match e with
  | Call newSchematicString =>
      match swapBegin (session a) newSchematicString with
      | (ses, Some new) =>
          mkAsync ses
            (inflight a ++ [populateFrom new ses (Schematic.blockTypes new)])
      | (ses, None) => mkAsync ses (inflight a)
      end
  | Resume i =>
      match inflight a !! i with
      | Some task =>
          match resumeTask (session a) task with
          | (ses, Some task) => mkAsync ses (<[i := task]> (inflight a))
          | (ses, None) => mkAsync ses (delete i (inflight a))
          end
      | None => a
      end
  | Frame => mkAsync (render (session a)) (inflight a)
  | Destroy => mkAsync (destroy (session a)) (inflight a)
  | Resize size => mkAsync (resize (session a) size) (inflight a)
  | SetSize width height => mkAsync (setSize (session a) width height) (inflight a)
  end.

Definition run (a : Async) (events : list Event) : Async := foldl step a events.

(** One swap alone in flight, resumed [fuel] times or to its end. *)
Fixpoint settle (fuel : nat) (ses : Session) (task : SwapTask)
    : Session * option SwapTask :=
  match fuel with
  | O => (ses, Some task)
  | S fuel =>
      match resumeTask ses task with
      | (ses, Some task) => settle fuel ses task
      | (ses, None) => (ses, None)
      end
  end.

(** The caller awaits every swap before the next call: a [Call] is issued
    only when nothing is in flight. *)
Fixpoint awaited (a : Async) (events : list Event) : Prop :=
  match events with
  | [] => True
  | e :: rest =>
      (match e with Call _ => inflight a = [] | _ => True end) ∧
      awaited (step a e) rest
  end.

(** *** Reference definitions, in the spec's words *)

Definition neighbour (pos : BlockVector3) (face : Face) : BlockVector3 :=
  let '(x, y, z) := pos in
  let '(dx, dy, dz) := faceToFacingVector face in
  (x + dx, y + dy, z + dz).

(** A face is exposing when the neighbour position is out of the grid's
    bounds, holds no block, or holds a block of a non-occluding type. *)
Definition exposingFace (s : Schematic.t) (pos : BlockVector3) (face : Face) : Prop :=
  contains s (neighbour pos face) = false ∨
  Schematic.blocks s !! neighbour pos face = None ∨
  ∃ offBlock, Schematic.blocks s !! neighbour pos face = Some offBlock ∧
              type offBlock ∈ NON_OCCLUDING_BLOCKS.


(** Every entry of the lookup holds at least one model, and is what some
    block of a type that is not invisible resolved to. *)
Definition lookupNonEmpty (blockModelLookup : gmap string BlockModelData) : Prop :=
  ∀ key modelData, blockModelLookup !! key = Some modelData →
    models modelData ≠ [] ∧
    ∃ block, key = hashBlockForMap block ∧ modelData = resolveBlock block ∧
             type block ∉ INVISIBLE_BLOCKS.

(** The assembly in the spec's words (4.4, Assemble): for each voxel that
    is picked, in order, the model loader is handed the scene and the
    non-null meshes it gives are added to the scene it leaves, each moved
    to the voxel's place and frozen; the other voxels add nothing.
    [withFragments] is the scene and loader cache that result,
    [fragments] the meshes added on the way. *)
Fixpoint withFragments (pick : BlockVector3 → option (Block * BlockModelData))
    (tx ty tz : Q) (st : Scene * ModelCache) (ps : list BlockVector3)
    : Scene * ModelCache :=
  match ps with
  | [] => st
  | pos :: rest =>
      match pick pos with
      | Some (block, modelData) =>
          let '(ms, sc, cache) := getModel (getModelOption modelData) block st.1 st.2 in
          withFragments pick tx ty tz
            (setMeshes sc (meshes sc ++ (placeMesh tx ty tz pos <$> omap id ms)), cache)
            rest
      | None => withFragments pick tx ty tz st rest
      end
  end.

Fixpoint fragments (pick : BlockVector3 → option (Block * BlockModelData))
    (tx ty tz : Q) (st : Scene * ModelCache) (ps : list BlockVector3) : list Mesh :=
  match ps with
  | [] => []
  | pos :: rest =>
      match pick pos with
      | Some (block, modelData) =>
          let '(ms, sc, cache) := getModel (getModelOption modelData) block st.1 st.2 in
          (placeMesh tx ty tz pos <$> omap id ms) ++
          fragments pick tx ty tz
            (setMeshes sc (meshes sc ++ (placeMesh tx ty tz pos <$> omap id ms)), cache)
            rest
      | None => fragments pick tx ty tz st rest
      end
  end.

(** The visible voxels of a structure under a lookup: the voxel holds a
    block of a type that is not invisible, the lookup has model data for
    the block, and one of the six neighbours is exposing. *)
Definition visibleVoxel (s : Schematic.t)
    (blockModelLookup : gmap string BlockModelData) (pos : BlockVector3)
    : option (Block * BlockModelData) :=
  match getBlock s pos with
  | Some block =>
      match blockModelLookup !! hashBlockForMap block with
      | Some modelData =>
          if bool_decide (type block ∉ INVISIBLE_BLOCKS) &&
             existsb (exposing s pos) POSSIBLE_FACES
          then Some (block, modelData)
          else None
      | None => None
      end
  | None => None
  end.

(** The fragments of the visible voxels of a structure, each moved to its
    voxel's place in the centred structure. *)
Definition visibleVoxelFragments (s : Schematic.t)
    (blockModelLookup : gmap string BlockModelData) (st : Scene * ModelCache)
    (ps : list BlockVector3) : list Mesh :=
  fragments (visibleVoxel s blockModelLookup) (centreOffset (Schematic.width s))
    (centreOffset (Schematic.height s)) (centreOffset (Schematic.length s)) st ps.





(** What one run of the population loop over [bs] does to the lookup, with
    [news] the blocks it resolved, in order. *)
Definition populated (lookup : gmap string BlockModelData) (bs : list Block)
    (lookup' : gmap string BlockModelData) (news : list Block) : Prop :=
  lookup ⊆ lookup' ∧
  (∀ b, b ∈ news →
        b ∈ bs ∧ (type b ∉ INVISIBLE_BLOCKS) ∧ lookup !! hashBlockForMap b = None) ∧
  (∀ b, b ∈ bs → type b ∉ INVISIBLE_BLOCKS → models (resolveBlock b) ≠ [] →
        is_Some (lookup' !! hashBlockForMap b)) ∧
  (∀ b, b ∈ bs → type b ∉ INVISIBLE_BLOCKS →
        lookup' !! hashBlockForMap b = None → b ∈ news) ∧
  (∀ key modelData, lookup' !! key = Some modelData →
        lookup !! key = Some modelData ∨
        (models modelData ≠ [] ∧
         ∃ b, b ∈ news ∧ key = hashBlockForMap b ∧ modelData = resolveBlock b)).

(** What holds of a session and its swaps in flight at every moment: the
    lookup is as [lookupNonEmpty] says, and a population waits for the
    state definition of a block type only if the type is not invisible. *)
Definition resolvingVisible (task : SwapTask) : Prop :=
  match task with
  | Resolving _ block _ => type block ∉ INVISIBLE_BLOCKS
  | _ => True
  end.

Definition coherent (a : Async) : Prop :=
  lookupNonEmpty (blockModelLookup (session a)) ∧
  Forall resolvingVisible (inflight a).

(** The active mesh set of a scene: its instanced meshes. *)
Definition activeMeshes (sc : Scene) : list Mesh := List.filter instanced (meshes sc).

(** Modelled from the spec: model/loader's [getModel] is not under src/.
    The spec's materialize step returns lightweight instanced references
    to cached geometry templates: every mesh it hands out is an
    [InstancedMesh]. The renderer counts on it: it sets
    [Mesh.INSTANCEDMESH_SORT_TRANSPARENT] (line 239) and looks for the
    fragments of a structure with [instanceof InstancedMesh] (line 345). *)
Definition handsOutInstances : Prop :=
  ∀ option block sc cache mesh,
    Some mesh ∈ (getModel option block sc cache).1.1 → instanced mesh = true.


(** The model loader leaves the mesh array of the scene as it is. *)
Definition leavesMeshes : Prop :=
  ∀ option block sc cache,
    meshes (getModel option block sc cache).1.2 = meshes sc.

(** The plain meshes of a scene: those the purge of a swap passes over. *)
Definition plainMeshes (sc : Scene) : list Mesh :=
  List.filter (λ m, negb (instanced m)) (meshes sc).

(** *** Work left in flight *)

(** An upper bound on the resumptions a swap in flight still needs: one for
    each block type and each voxel its loops have not passed yet, and one
    for each of the stretches between them. *)
Definition remaining (task : SwapTask) : nat :=
  match task with
  | Resolving new _ rest => length rest + length (positions new) + 3
  | Populated new => length (positions new) + 2
  | Materialising _ _ _ _ rest => length rest + 2
  | Assembled _ => 1
  end.

Fixpoint remainingAll (tasks : list SwapTask) : nat :=
  match tasks with
  | [] => 0
  | task :: tasks => remaining task + remainingAll tasks
  end.

Definition work (a : Async) : nat := remainingAll (inflight a).

(** ** Proofs *)

Lemma unquote_quoteJSONChar (c : ascii) (r : string) :
  unquoteJSONChar (quoteJSONChar c +:+ r) = Some (c, r).
Proof.
  destruct c as [[] [] [] [] [] [] [] []]; reflexivity.
Qed.

Lemma string_app_nil (b : string) : "" +:+ b = b.
Proof. reflexivity. Qed.

Lemma string_app_cons (x : ascii) (a b : string) :
  String x a +:+ b = String x (a +:+ b).
Proof. reflexivity. Qed.

Lemma string_app_assoc (a b c : string) : (a +:+ b) +:+ c = a +:+ (b +:+ c).
Proof.
  induction a as [|x a IH]; [done|].
  by rewrite !string_app_cons, IH.
Qed.

Lemma string_cons_inj (x : ascii) (a b : string) : String x a = String x b → a = b.
Proof. by intros [= ->]. Qed.

(** Appends are pushed to the right and literal prefixes exposed. *)
Ltac str_norm :=
  repeat first
    [ rewrite string_app_assoc | rewrite string_app_cons | rewrite string_app_nil ].
Ltac str_norm_in H :=
  repeat first
    [ rewrite string_app_assoc in H | rewrite string_app_cons in H
    | rewrite string_app_nil in H ].

Lemma quoteJSONBody_inj (s1 s2 r1 r2 : string) :
  quoteJSONBody s1 +:+ String dquote r1 = quoteJSONBody s2 +:+ String dquote r2 →
  s1 = s2 ∧ r1 = r2.
Proof.
  revert s2. induction s1 as [|c1 s1 IH]; intros [|c2 s2] H;
    cbn [quoteJSONBody] in H.
  - rewrite !string_app_nil in H. by injection H.
  - apply (f_equal unquoteJSONChar) in H.
    rewrite string_app_assoc, unquote_quoteJSONChar in H. discriminate.
  - apply (f_equal unquoteJSONChar) in H.
    rewrite string_app_assoc, unquote_quoteJSONChar in H. discriminate.
  - apply (f_equal unquoteJSONChar) in H.
    rewrite !string_app_assoc, !unquote_quoteJSONChar in H.
    injection H as -> H. by destruct (IH _ H) as [-> ->].
Qed.

Lemma quoteJSONString_inj (s1 s2 r1 r2 : string) :
  quoteJSONString s1 +:+ r1 = quoteJSONString s2 +:+ r2 → s1 = s2 ∧ r1 = r2.
Proof.
  unfold quoteJSONString. intros H. str_norm_in H.
  injection H as H. by apply quoteJSONBody_inj.
Qed.

Lemma jsonMember_inj (kv1 kv2 : string * string) (r1 r2 : string) :
  jsonMember kv1 +:+ r1 = jsonMember kv2 +:+ r2 → kv1 = kv2 ∧ r1 = r2.
Proof.
  destruct kv1 as [k1 v1], kv2 as [k2 v2]. unfold jsonMember. cbn [fst snd].
  intros H. rewrite !string_app_assoc in H.
  apply quoteJSONString_inj in H as [-> H].
  unfold quoteJSONString in H. str_norm_in H. injection H as H.
  by apply quoteJSONBody_inj in H as [-> ->].
Qed.

Lemma jsonMembers_inj (p1 p2 : list (string * string)) (r1 r2 : string) :
  jsonMembers p1 +:+ String "}" r1 = jsonMembers p2 +:+ String "}" r2 →
  p1 = p2 ∧ r1 = r2.
Proof.
  revert p2. induction p1 as [|kv1 rest1 IH]; intros [|kv2 rest2] H.
  - cbn [jsonMembers] in H. rewrite !string_app_nil in H. by injection H.
  - cbn [jsonMembers] in H. unfold jsonMember, quoteJSONString in H.
    str_norm_in H. discriminate.
  - cbn [jsonMembers] in H. unfold jsonMember, quoteJSONString in H.
    str_norm_in H. discriminate.
  - cbn [jsonMembers] in H. rewrite !string_app_assoc in H.
    apply jsonMember_inj in H as [-> H].
    destruct rest1 as [|kv1' rest1], rest2 as [|kv2' rest2].
    + rewrite !string_app_nil in H. by injection H as ->.
    + str_norm_in H. discriminate.
    + str_norm_in H. discriminate.
    + rewrite !string_app_assoc in H.
      change (String "," (jsonMembers (kv1' :: rest1) +:+ String "}" r1) =
              String "," (jsonMembers (kv2' :: rest2) +:+ String "}" r2)) in H.
      apply string_cons_inj in H. by destruct (IH _ H) as [-> ->].
Qed.

Lemma JSON_stringify_inj (p1 p2 : list (string * string)) :
  JSON_stringify p1 = JSON_stringify p2 → p1 = p2.
Proof.
  unfold JSON_stringify. intros H. str_norm_in H. injection H as H.
  by apply jsonMembers_inj in H as [-> _].
Qed.

Lemma string_app_nil_r (a : string) : a +:+ "" = a.
Proof. induction a as [|c a IH]; [done|]. by rewrite string_app_cons, IH. Qed.

Lemma string_app_eq_app (a b x y : string) :
  a +:+ x = b +:+ y →
  (∃ u, b = a +:+ u ∧ x = u +:+ y) ∨ (∃ u, a = b +:+ u ∧ y = u +:+ x).
Proof.
  revert b. induction a as [|c a IH]; intros b H.
  - left. exists b. by rewrite string_app_nil in *.
  - destruct b as [|d b].
    + right. exists (String c a). by rewrite string_app_nil in *.
    + rewrite !string_app_cons in H. injection H as -> H.
      destruct (IH b H) as [(u & -> & ->)|(u & -> & ->)]; [left|right]; by exists u.
Qed.

Lemma jrun_app (q : JState) (u w : string) :
  jrun q (u +:+ w) = match jrun q u with Some q' => jrun q' w | None => None end.
Proof.
  revert q. induction u as [|c u IH]; intros q; [done|].
  rewrite string_app_cons. cbn [jrun]. destruct (jdelta q (classify c)); [apply IH|done].
Qed.

Lemma jrun_quoteJSONChar (q : JState) (c : ascii) (rest : string) :
  q = JKey ∨ q = JVal → jrun q (quoteJSONChar c +:+ rest) = jrun q rest.
Proof.
  intros [->| ->]; destruct c as [[] [] [] [] [] [] [] []]; reflexivity.
Qed.

Lemma jrun_quoteJSONBody (q : JState) (s rest : string) :
  q = JKey ∨ q = JVal → jrun q (quoteJSONBody s +:+ rest) = jrun q rest.
Proof.
  intros Hq. induction s as [|c s IH]; cbn [quoteJSONBody]; [done|].
  by rewrite string_app_assoc, jrun_quoteJSONChar.
Qed.

Lemma jrun_jsonMember (q : JState) (kv : string * string) (rest : string) :
  q = JOpen ∨ q = JComma → jrun q (jsonMember kv +:+ rest) = jrun JAfterVal rest.
Proof.
  intros Hq. unfold jsonMember, quoteJSONString. str_norm.
  assert (jrun q (String dquote (quoteJSONBody kv.1 +:+
            String dquote (String ":" (String dquote (quoteJSONBody kv.2 +:+
              String dquote rest))))) =
          jrun JKey (quoteJSONBody kv.1 +:+
            String dquote (String ":" (String dquote (quoteJSONBody kv.2 +:+
              String dquote rest))))) as ->.
  { by destruct Hq as [->| ->]. }
  rewrite jrun_quoteJSONBody by (by left).
  change (jrun JVal (quoteJSONBody kv.2 +:+ String dquote rest) = jrun JAfterVal rest).
  by rewrite jrun_quoteJSONBody by (by right).
Qed.

Lemma jrun_jsonMembers (q : JState) (ps : list (string * string)) (rest : string) :
  q = JOpen ∨ q = JComma → ps ≠ [] →
  jrun q (jsonMembers ps +:+ rest) = jrun JAfterVal rest.
Proof.
  revert q. induction ps as [|kv ps IH]; intros q Hq Hne; [done|].
  cbn [jsonMembers]. rewrite string_app_assoc, jrun_jsonMember by done.
  destruct ps as [|kv' ps]; [done|].
  rewrite string_app_assoc.
  change (jrun JComma (jsonMembers (kv' :: ps) +:+ rest) = jrun JAfterVal rest).
  apply IH; [by right|done].
Qed.

Lemma jrun_JSON_stringify (ps : list (string * string)) :
  jrun JStart (JSON_stringify ps) = Some JDone.
Proof.
  unfold JSON_stringify. rewrite string_app_cons, string_app_nil.
  change (jrun JOpen (jsonMembers ps +:+ "}") = Some JDone).
  destruct ps as [|kv ps]; [done|].
  rewrite jrun_jsonMembers; [done|by left|done].
Qed.

Lemma apart_step (a b a' b' : JState) (k : JClass) :
  apart a b = true → jdelta a k = Some a' → jdelta b k = Some b' →
  apart a' b' = true.
Proof. destruct a, b, k; cbn; intros H [= <-] [= <-]; done. Qed.

Lemma apart_jrun (w : string) (a b : JState) :
  apart a b = true → jrun a w = Some JDone → jrun b w = Some JDone → False.
Proof.
  revert a b. induction w as [|c w IH]; intros a b Hab; cbn [jrun].
  - intros [= ->] [= ->]. done.
  - destruct (jdelta a (classify c)) as [a'|] eqn:Ha; [|done].
    destruct (jdelta b (classify c)) as [b'|] eqn:Hb; [|done].
    apply IH. by eapply apart_step.
Qed.

(** No rendering ends in a colon followed by a rendering. *)
Lemma JSON_stringify_no_suffix (u : string) (p1 p2 : list (string * string)) :
  JSON_stringify p1 ≠ u +:+ ":" +:+ JSON_stringify p2.
Proof.
  intros H. pose proof (jrun_JSON_stringify p1) as H1.
  rewrite H, jrun_app in H1. destruct (jrun JStart u) as [q|]; [|done].
  rewrite string_app_cons, string_app_nil in H1. cbn [jrun] in H1.
  destruct (jdelta q (classify ":")) as [q'|] eqn:Hq; [|done].
  apply (apart_jrun (JSON_stringify p2) q' JStart); [|done|apply jrun_JSON_stringify].
  destruct q; cbn in Hq; try discriminate Hq; by injection Hq as <-.
Qed.

Lemma hashBlockForMap_inj (b1 b2 : Block) :
  hashBlockForMap b1 = hashBlockForMap b2 → b1 = b2.
Proof.
  destruct b1 as [t1 p1], b2 as [t2 p2]. unfold hashBlockForMap. cbn [type properties].
  intros H.
  destruct (string_app_eq_app _ _ _ _ H) as [(u & -> & Hu)|(u & -> & Hu)];
    (destruct u as [|c u];
     [ rewrite string_app_nil in Hu; apply (inj (String.append _)) in Hu;
       apply JSON_stringify_inj in Hu; by rewrite string_app_nil_r, Hu
     | rewrite !string_app_cons, string_app_nil in Hu; injection Hu as <- Hu;
       by apply JSON_stringify_no_suffix in Hu ]).
Qed.

(** C1 (as amended): two blocks get the same key exactly when they have
    the same type and their property objects enumerate the same
    (name, value) pairs in the same order. *)
Theorem hashBlockForMap_eq_iff (b1 b2 : Block) :
  hashBlockForMap b1 = hashBlockForMap b2 ↔
  type b1 = type b2 ∧ properties b1 = properties b2.
Proof.
  split.
  - by intros ->%hashBlockForMap_inj.
  - intros [Ht Hp]. unfold hashBlockForMap. by rewrite Ht, Hp.
Qed.

(** *** The face test *)

Lemma exposing_iff (s : Schematic.t) (pos : BlockVector3) (face : Face) :
  exposing s pos face = true ↔ exposingFace s pos face.
Proof.
  unfold exposing, exposingFace, neighbour, getBlock.
  destruct pos as [[x y] z]. destruct (faceToFacingVector face) as [[dx dy] dz].
  destruct (contains s _) eqn:Hc.
  - destruct (Schematic.blocks s !! _) as [offBlock|] eqn:Hb.
    + rewrite bool_decide_eq_true. split.
      * intros Hin. right; right. by exists offBlock.
      * intros [?|[?|(b & [= <-] & Hin)]]; done.
    + split; [by (right; left)|done].
  - split; [by left|done].
Qed.


Lemma faceLoop_anyVisible (s : Schematic.t) (pos : BlockVector3) (faces : list Face) :
  (faceLoop s pos faces).1 = true ↔ ∃ face, face ∈ faces ∧ exposing s pos face = true.
Proof.
  induction faces as [|f rest IH]; cbn [faceLoop].
  - split; [done|]. intros (f & Hf & _). by apply elem_of_nil in Hf.
  - destruct (exposing s pos f) eqn:He.
    + split; [|done]. intros _. exists f. split; [left|done].
    + destruct (faceLoop s pos rest) as [anyVisible seen]. cbn [fst] in *.
      rewrite IH. split.
      * intros (g & Hg & Hge). exists g. split; [by right|done].
      * intros (g & Hg & Hge). apply elem_of_cons in Hg as [->|Hg]; [congruence|].
        by exists g.
Qed.





Lemma addPlacedMeshes_meshes (tx ty tz : Q) (pos : BlockVector3) (sc : Scene)
    (ms : list (option Mesh)) :
  meshes (addPlacedMeshes tx ty tz pos sc ms) =
    meshes sc ++ (placeMesh tx ty tz pos <$> omap id ms).
Proof.
  unfold addPlacedMeshes. revert sc.
  induction ms as [|[m|] ms IH]; intros sc; cbn [foldl omap].
  - by rewrite app_nil_r.
  - rewrite IH. cbn. by rewrite <- app_assoc.
  - apply IH.
Qed.

(** The loop of lines 181-190 changes the mesh array and nothing else. *)
Lemma addPlacedMeshes_setMeshes (tx ty tz : Q) (pos : BlockVector3) (sc : Scene)
    (ms : list (option Mesh)) :
  addPlacedMeshes tx ty tz pos sc ms =
    setMeshes sc (meshes sc ++ (placeMesh tx ty tz pos <$> omap id ms)).
Proof.
  unfold addPlacedMeshes. revert sc.
  induction ms as [|[m|] ms IH]; intros sc; cbn [foldl omap].
  - rewrite app_nil_r. by destruct sc.
  - rewrite IH. unfold addMesh, setMeshes. cbn [meshes disposedMeshes
      blockMaterialDirtyMechanism materialsFrozen renderedFrames fmap list_fmap id].
    by rewrite <- app_assoc.
  - apply IH.
Qed.


(** *** Placement *)

Lemma voxelStep_meshes (s : Schematic.t) (lookup : gmap string BlockModelData)
    (tx ty tz : Q) (st : Scene * ModelCache) (pos : BlockVector3) :
  meshes (voxelStep s lookup tx ty tz st pos).1 =
    match voxelModel s lookup pos with
    | Some (block, modelData) =>
        let handed := getModel (getModelOption modelData) block st.1 st.2 in
        meshes handed.1.2 ++ (placeMesh tx ty tz pos <$> omap id handed.1.1)
    | None => meshes st.1
    end.
Proof.
  unfold voxelStep, materialise.
  destruct (voxelModel s lookup pos) as [[block modelData]|]; [|done].
  cbn zeta. destruct (getModel _ _ _ _) as [[ms sc] cache]. apply addPlacedMeshes_meshes.
Qed.

(** *** Removing meshes *)

Lemma count_occ_removeFirst (x y : Mesh) (l : list Mesh) :
  count_occ Mesh_eq_dec (removeFirst x l) y =
    if decide (x = y) then pred (count_occ Mesh_eq_dec l y)
    else count_occ Mesh_eq_dec l y.
Proof.
  induction l as [|a l IH]; cbn [removeFirst count_occ].
  - by case_decide.
  - destruct (decide (a = x)) as [Heq|Hax]; cbn [count_occ];
      destruct (Mesh_eq_dec a y) as [Hay|Hay]; destruct (decide (x = y)) as [Hxy|Hxy];
      try congruence; try rewrite IH; try done.
    all: try (rewrite decide_True by done); try (rewrite decide_False by done); done.
Qed.

Lemma removeFirst_subseteq (x : Mesh) (l : list Mesh) : removeFirst x l ⊆ l.
Proof.
  induction l as [|a l IH]; cbn [removeFirst]; [done|].
  destruct (decide (a = x)); [by apply list_subseteq_cons|].
  intros m [->|Hm]%elem_of_cons; [left|right; by apply IH].
Qed.

Lemma filter_removeFirst (f : Mesh → bool) (x : Mesh) (l : list Mesh) :
  f x = false → List.filter f (removeFirst x l) = List.filter f l.
Proof.
  intros Hx. induction l as [|a l IH]; cbn [removeFirst List.filter]; [done|].
  destruct (decide (a = x)) as [->|Hax].
  - by rewrite Hx.
  - cbn [List.filter]. by rewrite IH.
Qed.

Lemma count_occ_filter_true (f : Mesh → bool) (y : Mesh) (l : list Mesh) :
  f y = true →
  count_occ Mesh_eq_dec (List.filter f l) y = count_occ Mesh_eq_dec l y.
Proof.
  intros Hy. induction l as [|a l IH]; cbn [List.filter count_occ]; [done|].
  destruct (f a) eqn:Ha; cbn [count_occ].
  - by rewrite IH.
  - destruct (Mesh_eq_dec a y) as [->|_]; [congruence|done].
Qed.

Lemma filter_all_true (f : Mesh → bool) (l : list Mesh) :
  (∀ m, m ∈ l → f m = true) → List.filter f l = l.
Proof.
  induction l as [|a l IH]; intros H; cbn [List.filter]; [done|].
  rewrite (H a) by set_solver. f_equal. apply IH. intros m Hm. apply H. set_solver.
Qed.

Lemma filter_all_false (f : Mesh → bool) (l : list Mesh) :
  (∀ m, m ∈ l → f m = false) → List.filter f l = [].
Proof.
  induction l as [|a l IH]; intros H; cbn [List.filter]; [done|].
  rewrite (H a) by set_solver. apply IH. intros m Hm. apply H. set_solver.
Qed.

Lemma count_occ_removeEach (y : Mesh) (xs l : list Mesh) :
  (count_occ Mesh_eq_dec (removeEach xs l) y ≤
     count_occ Mesh_eq_dec l y - count_occ Mesh_eq_dec xs y)%nat.
Proof.
  unfold removeEach. revert l.
  induction xs as [|x xs IH]; intros l; cbn [foldl count_occ]; [lia|].
  etrans; [apply IH|]. rewrite !count_occ_removeFirst.
  destruct (Mesh_eq_dec x y) as [Hxy|Hxy].
  - rewrite !decide_True by done. lia.
  - rewrite !decide_False by done. lia.
Qed.

Lemma filter_removeEach (f : Mesh → bool) (xs l : list Mesh) :
  (∀ x, x ∈ xs → f x = false) →
  List.filter f (removeEach xs l) = List.filter f l.
Proof.
  unfold removeEach. revert l.
  induction xs as [|x xs IH]; intros l H; cbn [foldl]; [done|].
  rewrite IH by (intros; apply H; set_solver).
  rewrite !filter_removeFirst; [done| |]; apply H; set_solver.
Qed.

Lemma removeEach_instanced (l : list Mesh) :
  removeEach (List.filter instanced l) l = List.filter (λ m, negb (instanced m)) l.
Proof.
  rewrite <- (filter_removeEach (λ m, negb (instanced m)) (List.filter instanced l) l).
  - symmetry. apply filter_all_true. intros m Hm.
    destruct (instanced m) eqn:Hi; [|done]. exfalso.
    pose proof (count_occ_removeEach m (List.filter instanced l) l) as Hc.
    rewrite count_occ_filter_true in Hc by done.
    apply list_elem_of_In, (count_occ_In Mesh_eq_dec) in Hm. lia.
  - intros x Hx. apply list_elem_of_In, filter_In in Hx as [_ ->]. done.
Qed.

Lemma purge_fold (xs : list Mesh) (sc : Scene) :
  let sc' :=
    foldl (λ sc instancedMesh, dispose (removeMesh sc instancedMesh) instancedMesh)
      sc xs in
  meshes sc' = removeEach xs (meshes sc) ∧
  disposedMeshes sc' = disposedMeshes sc ++ xs.
Proof.
  unfold removeEach. revert sc.
  induction xs as [|x xs IH]; intros sc; cbn [foldl].
  - by rewrite app_nil_r.
  - destruct (IH (dispose (removeMesh sc x) x)) as [Hm Hd]. cbn zeta in *.
    rewrite Hm, Hd. cbn. by rewrite <- app_assoc.
Qed.

Lemma purgeInstancedMeshes_meshes (sc : Scene) :
  meshes (purgeInstancedMeshes sc) =
    List.filter (λ m, negb (instanced m)) (meshes sc).
Proof.
  unfold purgeInstancedMeshes.
  destruct (purge_fold (List.filter instanced (meshes sc)) sc) as [-> _].
  apply removeEach_instanced.
Qed.

Lemma purgeInstancedMeshes_disposed (sc : Scene) :
  disposedMeshes (purgeInstancedMeshes sc) =
    disposedMeshes sc ++ List.filter instanced (meshes sc).
Proof.
  unfold purgeInstancedMeshes.
  by destruct (purge_fold (List.filter instanced (meshes sc)) sc) as [_ ->].
Qed.

(** *** Assembly adds the fragments of the visible voxels *)

Lemma faceLoop_existsb (s : Schematic.t) (pos : BlockVector3) (faces : list Face) :
  (faceLoop s pos faces).1 = existsb (exposing s pos) faces.
Proof.
  induction faces as [|f fs IH]; cbn [faceLoop existsb]; [done|].
  destruct (exposing s pos f); [done|].
  destruct (faceLoop s pos fs) as [anyVisible seen]. by cbn in *.
Qed.

Lemma voxelModel_visibleVoxel (s : Schematic.t) (lookup : gmap string BlockModelData)
    (pos : BlockVector3) :
  voxelModel s lookup pos = visibleVoxel s lookup pos.
Proof.
  unfold voxelModel, visibleVoxel. rewrite faceLoop_existsb.
  destruct (getBlock s pos) as [block|]; [|done].
  destruct (decide (type block ∈ INVISIBLE_BLOCKS)) as [Hin|Hin].
  - rewrite bool_decide_eq_false_2 by (by intros ?). cbn [andb].
    by destruct (lookup !! hashBlockForMap block).
  - rewrite bool_decide_eq_true_2 by done. cbn [andb].
    destruct (lookup !! hashBlockForMap block) as [modelData|]; [|done].
    by destruct (existsb _ _).
Qed.

(** The loop over the positions is the assembly in the spec's words, over
    the voxels [voxelModel] lets through. *)
Lemma foldl_voxelStep (s : Schematic.t) (lookup : gmap string BlockModelData)
    (pick : BlockVector3 → option (Block * BlockModelData)) (tx ty tz : Q)
    (ps : list BlockVector3) (st : Scene * ModelCache) :
  (∀ pos, pos ∈ ps → voxelModel s lookup pos = pick pos) →
  foldl (voxelStep s lookup tx ty tz) st ps = withFragments pick tx ty tz st ps.
Proof.
  revert st. induction ps as [|pos ps IH]; intros st Hpick; cbn [foldl withFragments];
    [done|].
  rewrite IH by (intros p Hp; apply Hpick; by right).
  unfold voxelStep, materialise. rewrite (Hpick pos) by left.
  destruct (pick pos) as [[block modelData]|]; [|done].
  destruct (getModel _ _ _ _) as [[ms sc] cache].
  by rewrite addPlacedMeshes_setMeshes.
Qed.

Lemma computeSchematicMesh_withFragments (s : Schematic.t)
    (lookup : gmap string BlockModelData)
    (pick : BlockVector3 → option (Block * BlockModelData))
    (sc : Scene) (cache : ModelCache) (w h l : Z) :
  (∀ pos, pos ∈ positions s → voxelModel s lookup pos = pick pos) →
  computeSchematicMesh s lookup (sc, cache) w h l =
    (setBlockMaterialDirtyMechanism
       (withFragments pick (centreOffset w) (centreOffset h) (centreOffset l)
          (setBlockMaterialDirtyMechanism sc true, cache) (positions s)).1 false,
     (withFragments pick (centreOffset w) (centreOffset h) (centreOffset l)
        (setBlockMaterialDirtyMechanism sc true, cache) (positions s)).2).
Proof.
  intros Hpick. unfold computeSchematicMesh. cbn [fst snd].
  by rewrite (foldl_voxelStep s lookup pick).
Qed.

(** When the loader leaves the mesh array alone, the assembly appends the
    fragments to it. *)
Lemma withFragments_meshes
    (pick : BlockVector3 → option (Block * BlockModelData)) (tx ty tz : Q)
    (ps : list BlockVector3) (st : Scene * ModelCache) :
  leavesMeshes →
  meshes (withFragments pick tx ty tz st ps).1 =
    meshes st.1 ++ fragments pick tx ty tz st ps.
Proof.
  intros Hleaves. revert st.
  induction ps as [|pos ps IH]; intros st; cbn [withFragments fragments].
  - by rewrite app_nil_r.
  - destruct (pick pos) as [[block modelData]|]; [|apply IH].
    pose proof (Hleaves (getModelOption modelData) block st.1 st.2) as Hm.
    destruct (getModel _ _ _ _) as [[ms sc] cache]. cbn [fst snd] in Hm.
    rewrite IH. cbn [fst setMeshes meshes]. by rewrite Hm, app_assoc.
Qed.


(** C6: the fragments of the voxel at (x, y, z) enter the scene moved by
    -width/2 + 0.5 + x, -height/2 + 0.5 + y and -length/2 + 0.5 + z, with
    width, height and length those of the structure: the assembly is the
    scene with the fragments of the visible voxels, each at its place,
    added behind what the loader leaves, and, when the loader leaves the
    mesh array alone, the scene it was given followed by these fragments.
    In a 2 x 1 x 1 structure a fragment modelled at the origin lands at
    x = -0.5 for the voxel (0,0,0) and at x = 0.5 for the voxel (1,0,0). *)
Theorem fragment_translation :
  (∀ (s : Schematic.t) (lookup : gmap string BlockModelData)
     (sc : Scene) (cache : ModelCache),
     let st :=
       withFragments (visibleVoxel s lookup) (centreOffset (Schematic.width s))
         (centreOffset (Schematic.height s)) (centreOffset (Schematic.length s))
         (setBlockMaterialDirtyMechanism sc true, cache) (positions s) in
     computeSchematicMesh s lookup (sc, cache) (Schematic.width s)
       (Schematic.height s) (Schematic.length s) =
       (setBlockMaterialDirtyMechanism st.1 false, st.2)) ∧
  (∀ (s : Schematic.t) (lookup : gmap string BlockModelData)
     (sc : Scene) (cache : ModelCache),
     leavesMeshes →
     meshes (computeSchematicMesh s lookup (sc, cache) (Schematic.width s)
               (Schematic.height s) (Schematic.length s)).1 =
       meshes sc ++
       visibleVoxelFragments s lookup (setBlockMaterialDirtyMechanism sc true, cache)
         (positions s)) ∧
  (∀ (s : Schematic.t) (lookup : gmap string BlockModelData)
     (st : Scene * ModelCache) (pos : BlockVector3) (w h l : Z),
     meshes (voxelStep s lookup (centreOffset w) (centreOffset h) (centreOffset l)
               st pos).1 =
       match voxelModel s lookup pos with
       | Some (block, modelData) =>
           let handed := getModel (getModelOption modelData) block st.1 st.2 in
           meshes handed.1.2 ++
           (placeMesh (centreOffset w) (centreOffset h) (centreOffset l) pos <$>
              omap id handed.1.1)
       | None => meshes st.1
       end) ∧
  (∀ (w h l x y z : Z) (mesh : Mesh),
     let placed :=
       placeMesh (centreOffset w) (centreOffset h) (centreOffset l) (x, y, z) mesh in
     (Vector3.x (position placed) ==
        Vector3.x (position mesh) + (- inject_Z w / 2 + (1 # 2) + inject_Z x))%Q ∧
     (Vector3.y (position placed) ==
        Vector3.y (position mesh) + (- inject_Z h / 2 + (1 # 2) + inject_Z y))%Q ∧
     (Vector3.z (position placed) ==
        Vector3.z (position mesh) + (- inject_Z l / 2 + (1 # 2) + inject_Z z))%Q) ∧
  (∀ mesh : Mesh,
     let first :=
       placeMesh (centreOffset 2) (centreOffset 1) (centreOffset 1) (0, 0, 0) mesh in
     let second :=
       placeMesh (centreOffset 2) (centreOffset 1) (centreOffset 1) (1, 0, 0) mesh in
     (Vector3.x (position mesh) == 0)%Q →
     (Vector3.x (position first) == - (1 # 2))%Q ∧
     (Vector3.x (position second) == 1 # 2)%Q).
Proof.
  split; [|split; [|split; [|split]]].
  - intros. subst st. apply computeSchematicMesh_withFragments.
    intros pos _. apply voxelModel_visibleVoxel.
  - intros s lookup sc cache Hleaves.
    rewrite (computeSchematicMesh_withFragments s lookup (visibleVoxel s lookup))
      by (intros pos _; apply voxelModel_visibleVoxel).
    cbn [fst setBlockMaterialDirtyMechanism meshes].
    by rewrite withFragments_meshes.
  - intros. apply voxelStep_meshes.
  - intros w h l x y z mesh. cbn. unfold centreOffset. repeat split; reflexivity.
  - intros mesh first second H0. subst first second.
    cbn [placeMesh position Vector3.x]. rewrite H0. split; reflexivity.
Qed.

(** *** Swap *)

Lemma swapPopulate_fields (ses : Session) (new : Schematic.t) :
  scene (swapPopulate ses new) = scene ses ∧
  modelCache (swapPopulate ses new) = modelCache ses ∧
  hasDestroyed (swapPopulate ses new) = hasDestroyed ses ∧
  blockModelLookup (swapPopulate ses new) =
    (updateBlockModelLookup (blockModelLookup ses) (resolutions ses) new).1 ∧
  resolutions (swapPopulate ses new) =
    (updateBlockModelLookup (blockModelLookup ses) (resolutions ses) new).2.
Proof.
  unfold swapPopulate. by destruct (updateBlockModelLookup _ _ _).
Qed.

Lemma swapAssemble_fields (ses : Session) (new : Schematic.t) :
  blockModelLookup (swapAssemble ses new) = blockModelLookup ses ∧
  hasDestroyed (swapAssemble ses new) = hasDestroyed ses ∧
  resolutions (swapAssemble ses new) = resolutions ses ∧
  scene (swapAssemble ses new) =
    freezeMaterials
      (computeSchematicMesh new (blockModelLookup ses) (scene ses, modelCache ses)
         (Schematic.width new) (Schematic.height new) (Schematic.length new)).1 ∧
  modelCache (swapAssemble ses new) =
    (computeSchematicMesh new (blockModelLookup ses) (scene ses, modelCache ses)
       (Schematic.width new) (Schematic.height new) (Schematic.length new)).2.
Proof.
  unfold swapAssemble. by destruct (computeSchematicMesh _ _ _ _ _ _) as [sc cache].
Qed.

Lemma swapBegin_fields (ses ses1 : Session) (str : string) (r : option Schematic.t) :
  swapBegin ses str = (ses1, r) →
  blockModelLookup ses1 = blockModelLookup ses ∧
  modelCache ses1 = emptyModelCache ∧
  hasDestroyed ses1 = hasDestroyed ses ∧
  resolutions ses1 = resolutions ses ∧
  activeMeshes (scene ses1) = [] ∧
  (∀ m, m ∈ meshes (scene ses) → instanced m = true →
        m ∈ disposedMeshes (scene ses1)) ∧
  (∀ new, r = Some new → loadSchematic str = Some new).
Proof.
  unfold swapBegin. intros H.
  assert (Hnone : ∀ g gh,
            List.filter instanced
              (removeFirst g (meshes (purgeInstancedMeshes (scene ses))) ++ [groundMesh gh])
            = []).
  { intros g gh. apply filter_all_false. intros m [Hm|Hm]%elem_of_app.
    - apply removeFirst_subseteq in Hm. rewrite purgeInstancedMeshes_meshes in Hm.
      apply list_elem_of_In, filter_In in Hm as [_ Hm]. by destruct (instanced m).
    - by apply list_elem_of_singleton in Hm as ->. }
  assert (Hpurged : List.filter instanced (meshes (purgeInstancedMeshes (scene ses))) = []).
  { apply filter_all_false. intros m Hm. rewrite purgeInstancedMeshes_meshes in Hm.
    apply list_elem_of_In, filter_In in Hm as [_ Hm]. by destruct (instanced m). }
  assert (Hdisp : ∀ m, m ∈ meshes (scene ses) → instanced m = true →
            m ∈ disposedMeshes (purgeInstancedMeshes (scene ses))).
  { intros m Hm Hi. rewrite purgeInstancedMeshes_disposed. apply elem_of_app. right.
    apply list_elem_of_In, filter_In. split; [by apply list_elem_of_In|done]. }
  destruct (loadSchematic str) as [new|].
  - destruct (List.find _ _) as [ground|]; injection H as <- <-; cbn;
      unfold activeMeshes; cbn; repeat split; try done.
    intros m Hm Hi. apply elem_of_app. left. by apply Hdisp.
  - injection H as <- <-. cbn. unfold activeMeshes. cbn. repeat split; done.
Qed.

Lemma swapSchematic_completes (ses : Session) (str : string) (new : Schematic.t)
    (ground : Mesh) :
  loadSchematic str = Some new →
  ground ∈ meshes (scene ses) → name ground = "ground" → instanced ground = false →
  (swapSchematic ses str).2 = Completed.
Proof.
  intros Hl Hg Hn Hi. unfold swapSchematic, swapBegin. rewrite Hl.
  destruct (List.find _ _) as [g|] eqn:Hf; [done|]. exfalso.
  assert (ground ∈ meshes (purgeInstancedMeshes (scene ses))) as Hp.
  { rewrite purgeInstancedMeshes_meshes. apply list_elem_of_In, filter_In. split.
    - by apply list_elem_of_In.
    - by rewrite Hi. }
  apply list_elem_of_In in Hp. pose proof (find_none _ _ Hf ground Hp) as Hne.
  cbn beta in Hne. by rewrite Hn in Hne.
Qed.

(** *** Population of the lookup *)

Lemma populated_nil (lookup : gmap string BlockModelData) :
  populated lookup [] lookup [].
Proof.
  split; [done|]. split; [by intros b ?%elem_of_nil|].
  split; [by intros b ?%elem_of_nil|]. split; [by intros b ?%elem_of_nil|].
  intros key md H. by left.
Qed.

(** A round that resolves nothing. *)
Lemma populated_skip (lookup lookup' : gmap string BlockModelData) (b : Block)
    (bs news : list Block) :
  type b ∈ INVISIBLE_BLOCKS ∨ is_Some (lookup !! hashBlockForMap b) →
  populated lookup bs lookup' news → populated lookup (b :: bs) lookup' news.
Proof.
  intros Hskip (Hsub & Hnews & Hrec & Hres & Hent).
  split; [done|]. split; [|split; [|split; [|done]]].
  - intros b' Hb'. destruct (Hnews b' Hb') as (? & ? & ?).
    split; [by right|done].
  - intros b' [->|Hb']%elem_of_cons Hinv Hne; [|by apply Hrec].
    destruct Hskip as [?|[md Hmd]]; [done|]. exists md. by eapply lookup_weaken.
  - intros b' [->|Hb']%elem_of_cons Hinv Hnone; [|by apply Hres].
    destruct Hskip as [?|[md Hmd]]; [done|].
    by rewrite (lookup_weaken _ _ _ _ Hmd Hsub) in Hnone.
Qed.

(** A round that resolves [b], whether or not the result is recorded:
    [lookup1] is the lookup after the round. *)
Lemma populated_resolve (lookup lookup1 lookup' : gmap string BlockModelData)
    (b : Block) (bs news : list Block) :
  type b ∉ INVISIBLE_BLOCKS → lookup !! hashBlockForMap b = None →
  (match models (resolveBlock b) with
   | [] => lookup1 = lookup
   | _ :: _ => lookup1 = <[hashBlockForMap b := resolveBlock b]> lookup
   end) →
  populated lookup1 bs lookup' news → populated lookup (b :: bs) lookup' (b :: news).
Proof.
  intros Hinv Hnone H1 (Hsub & Hnews & Hrec & Hres & Hent).
  assert (Hsub1 : lookup ⊆ lookup1).
  { destruct (models (resolveBlock b)); subst lookup1; [done|].
    by apply insert_subseteq. }
  assert (Hback : ∀ k, lookup1 !! k = None → lookup !! k = None).
  { intros k Hk. destruct (lookup !! k) as [md|] eqn:E; [|done].
    by rewrite (lookup_weaken _ _ _ _ E Hsub1) in Hk. }
  split; [by etrans|]. split; [|split; [|split]].
  - intros b' [->|Hb']%elem_of_cons.
    + split; [left|done].
    + destruct (Hnews b' Hb') as (? & ? & ?). split; [by right|]. split; [done|].
      by apply Hback.
  - intros b' [->|Hb']%elem_of_cons Hinv' Hne; [|by apply Hrec].
    destruct (models (resolveBlock b)) eqn:E; [done|]. subst lookup1.
    exists (resolveBlock b). eapply lookup_weaken; [|done]. apply lookup_insert_eq.
  - intros b' [->|Hb']%elem_of_cons Hinv' Hn; [left|right; by apply Hres].
  - intros key md Hkey.
    destruct (Hent key md Hkey) as [Hk|(Hne & b' & Hb' & -> & ->)].
    + destruct (models (resolveBlock b)) eqn:E; subst lookup1; [by left|].
      destruct (decide (hashBlockForMap b = key)) as [<-|Hneq].
      * rewrite lookup_insert_eq in Hk. injection Hk as <-. right.
        split; [by rewrite E|]. exists b. split; [left|done].
      * rewrite lookup_insert_ne in Hk by done. by left.
    + right. split; [done|]. exists b'. split; [by right|done].
Qed.

Lemma foldl_lookupStep (bs : list Block) (lookup : gmap string BlockModelData)
    (log : list Block) :
  ∃ news,
    (foldl lookupStep (lookup, log) bs).2 = log ++ news ∧
    populated lookup bs (foldl lookupStep (lookup, log) bs).1 news.
Proof.
  revert lookup log. induction bs as [|b bs IH]; intros lookup log; cbn [foldl].
  - exists []. split; [by rewrite app_nil_r|apply populated_nil].
  - unfold lookupStep at 2 4. cbn [fst].
    destruct (decide (type b ∈ INVISIBLE_BLOCKS)) as [Hinv|Hinv].
    { destruct (IH lookup log) as (news & Hlog & Hp). exists news.
      split; [done|]. apply populated_skip; [by left|done]. }
    destruct (lookup !! hashBlockForMap b) as [md|] eqn:Hk.
    { destruct (IH lookup log) as (news & Hlog & Hp). exists news.
      split; [done|]. apply populated_skip; [right; by rewrite Hk|done]. }
    unfold resolveAndSet. cbn zeta.
    destruct (models (resolveBlock b)) as [|mh mhs] eqn:Hm.
    + destruct (IH lookup (log ++ [b])) as (news & Hlog & Hp). exists (b :: news).
      split; [by rewrite Hlog, <- app_assoc|].
      eapply populated_resolve; [done|done| |done]. by rewrite Hm.
    + destruct (IH (<[hashBlockForMap b := resolveBlock b]> lookup) (log ++ [b]))
        as (news & Hlog & Hp). exists (b :: news).
      split; [by rewrite Hlog, <- app_assoc|].
      eapply populated_resolve; [done|done| |done]. by rewrite Hm.
Qed.

Lemma updateBlockModelLookup_populated (lookup : gmap string BlockModelData)
    (log : list Block) (s : Schematic.t) :
  ∃ news,
    (updateBlockModelLookup lookup log s).2 = log ++ news ∧
    populated lookup (Schematic.blockTypes s)
      (updateBlockModelLookup lookup log s).1 news.
Proof. apply foldl_lookupStep. Qed.

Lemma updateBlockModelLookup_nonEmpty (lookup : gmap string BlockModelData)
    (log : list Block) (s : Schematic.t) :
  lookupNonEmpty lookup → lookupNonEmpty (updateBlockModelLookup lookup log s).1.
Proof.
  intros Hne key md Hkey.
  destruct (updateBlockModelLookup_populated lookup log s)
    as (news & _ & _ & Hnews & _ & _ & Hent).
  destruct (Hent key md Hkey) as [Hk|(Hm & b & Hb & -> & ->)]; [by eapply Hne|].
  split; [done|]. exists b. destruct (Hnews b Hb) as (_ & Hinv & _). done.
Qed.

(** C3 (as amended): for Loads that run one after the other, a Load
    resolves only blocks whose key is absent from the lookup when the Load
    starts. A block type that resolves to at least one model is recorded,
    and no later Load resolves it again. A block type that resolves to no
    model is resolved by the Load and left unrecorded. *)
Theorem updateBlockModelLookup_resolutions (lookup : gmap string BlockModelData)
    (log : list Block) (s : Schematic.t) :
  ∃ news,
    (updateBlockModelLookup lookup log s).2 = log ++ news ∧
    (∀ b, b ∈ news →
          lookup !! hashBlockForMap b = None ∧ (type b ∉ INVISIBLE_BLOCKS) ∧
          b ∈ Schematic.blockTypes s) ∧
    (∀ b, b ∈ Schematic.blockTypes s → type b ∉ INVISIBLE_BLOCKS →
          models (resolveBlock b) ≠ [] →
          is_Some ((updateBlockModelLookup lookup log s).1 !! hashBlockForMap b) ∧
          ∀ lookup2 log2 s2 news2,
            (updateBlockModelLookup lookup log s).1 ⊆ lookup2 →
            (updateBlockModelLookup lookup2 log2 s2).2 = log2 ++ news2 →
            b ∉ news2) ∧
    (∀ b, b ∈ Schematic.blockTypes s → type b ∉ INVISIBLE_BLOCKS →
          lookup !! hashBlockForMap b = None →
          (∀ b', b' ∈ Schematic.blockTypes s →
                 hashBlockForMap b' = hashBlockForMap b →
                 models (resolveBlock b') = []) →
          b ∈ news ∧
          (updateBlockModelLookup lookup log s).1 !! hashBlockForMap b = None).
Proof.
  destruct (updateBlockModelLookup_populated lookup log s)
    as (news & Hlog & Hsub & Hnews & Hrec & Hres & Hent).
  exists news. split; [done|]. split; [|split].
  - intros b Hb. destruct (Hnews b Hb) as (? & ? & ?). done.
  - intros b Hb Hinv Hne. split; [by apply Hrec|].
    intros lookup2 log2 s2 news2 Hsub2 Hlog2 Hin.
    destruct (updateBlockModelLookup_populated lookup2 log2 s2)
      as (news2' & Hlog2' & _ & Hnews2 & _).
    rewrite Hlog2 in Hlog2'. apply app_inv_head in Hlog2'. subst news2'.
    destruct (Hnews2 b Hin) as (_ & _ & Hnone).
    destruct (Hrec b Hb Hinv Hne) as [md Hmd].
    by rewrite (lookup_weaken _ _ _ _ Hmd Hsub2) in Hnone.
  - intros b Hb Hinv Hnone Hempty.
    assert ((updateBlockModelLookup lookup log s).1 !! hashBlockForMap b = None) as Hn.
    { destruct ((updateBlockModelLookup lookup log s).1 !! hashBlockForMap b)
        as [md|] eqn:E; [|done].
      destruct (Hent _ _ E) as [Hk|(Hne & b' & Hb' & Hh & ->)]; [congruence|].
      destruct (Hnews b' Hb') as (Hbs & _ & _).
      by rewrite (Hempty b' Hbs (eq_sym Hh)) in Hne. }
    split; [by apply Hres|done].
Qed.

(** *** Session steps *)

Lemma render_fields (ses : Session) :
  blockModelLookup (render ses) = blockModelLookup ses ∧
  hasDestroyed (render ses) = hasDestroyed ses.
Proof. unfold render. by destruct (hasDestroyed ses) eqn:E. Qed.

Lemma nextToResolve_Some (lookup : gmap string BlockModelData) (blocks rest : list Block)
    (block : Block) :
  nextToResolve lookup blocks = Some (block, rest) →
  (type block ∉ INVISIBLE_BLOCKS) ∧ lookup !! hashBlockForMap block = None ∧
  (length rest < length blocks)%nat.
Proof.
  induction blocks as [|b bs IH]; cbn [nextToResolve]; [done|].
  destruct (decide (type b ∈ INVISIBLE_BLOCKS)) as [Hinv|Hinv].
  { intros H. destruct (IH H) as (? & ? & ?). cbn. repeat split; [done|done|lia]. }
  destruct (lookup !! hashBlockForMap b) as [md|] eqn:Hk.
  { intros H. destruct (IH H) as (? & ? & ?). cbn. repeat split; [done|done|lia]. }
  intros [= <- <-]. cbn. repeat split; [done|done|lia].
Qed.

Lemma populateFrom_visible (new : Schematic.t) (ses : Session) (blocks : list Block) :
  resolvingVisible (populateFrom new ses blocks).
Proof.
  unfold populateFrom.
  destruct (nextToResolve _ blocks) as [[block rest]|] eqn:Hn; [|done].
  by apply nextToResolve_Some in Hn as (? & _).
Qed.

Lemma assembleFrom_fields (new : Schematic.t) (ses : Session) (ps : list BlockVector3) :
  blockModelLookup (assembleFrom new ses ps).1 = blockModelLookup ses ∧
  hasDestroyed (assembleFrom new ses ps).1 = hasDestroyed ses ∧
  resolvingVisible (assembleFrom new ses ps).2.
Proof.
  unfold assembleFrom.
  by destruct (nextToMaterialise _ _ ps) as [[[[pos block] modelData] rest]|].
Qed.

(** What a resumption does to the lookup: nothing, but for the population
    that had been waiting for a state definition. *)
Lemma resumeTask_fields (ses : Session) (task : SwapTask) :
  hasDestroyed (resumeTask ses task).1 = hasDestroyed ses ∧
  blockModelLookup (resumeTask ses task).1 =
    match task with
    | Resolving _ block _ =>
        (resolveAndSet (blockModelLookup ses, resolutions ses) block).1
    | _ => blockModelLookup ses
    end ∧
  match (resumeTask ses task).2 with
  | Some task' => resolvingVisible task'
  | None => True
  end.
Proof.
  destruct task as [new block rest|new|new pos block option rest|new];
    cbn [resumeTask].
  - cbn. split; [done|]. split; [done|]. apply populateFrom_visible.
  - destruct (assembleFrom_fields new
                (setScene ses (setBlockMaterialDirtyMechanism (scene ses) true))
                (positions new)) as (Hl & Hd & Hv).
    destruct (assembleFrom _ _ _) as [ses' task']. by cbn in *.
  - destruct (assembleFrom_fields new
                (setAssembly ses
                   (materialise (centreOffset (Schematic.width new))
                      (centreOffset (Schematic.height new))
                      (centreOffset (Schematic.length new))
                      (scene ses, modelCache ses) pos block option)) rest)
      as (Hl & Hd & Hv).
    destruct (assembleFrom _ _ _) as [ses' task']. by cbn in *.
  - done.
Qed.

Lemma resolveAndSet_lookup (lookup : gmap string BlockModelData) (log : list Block)
    (block : Block) :
  lookupNonEmpty lookup →
  lookup ⊆ (resolveAndSet (lookup, log) block).1 ∧
  (type block ∉ INVISIBLE_BLOCKS →
   lookupNonEmpty (resolveAndSet (lookup, log) block).1).
Proof.
  intros Hne. unfold resolveAndSet.
  destruct (models (resolveBlock block)) as [|holder holders] eqn:Hm; cbn [fst]; [done|].
  split.
  - destruct (lookup !! hashBlockForMap block) as [modelData|] eqn:Hk.
    + destruct (Hne _ _ Hk) as (_ & block' & Hkey & -> & _).
      apply hashBlockForMap_inj in Hkey as ->. by rewrite insert_id.
    + by apply insert_subseteq.
  - intros Hinv key modelData Hkey.
    destruct (decide (hashBlockForMap block = key)) as [<-|Hneq].
    + rewrite lookup_insert_eq in Hkey. injection Hkey as <-.
      split; [by rewrite Hm|]. by exists block.
    + rewrite lookup_insert_ne in Hkey by done. by eapply Hne.
Qed.

Lemma step_hasDestroyed (a : Async) (e : Event) :
  hasDestroyed (session a) = true → hasDestroyed (session (step a e)) = true.
Proof.
  intros Hd. destruct e as [str|i| | |sz|w h]; cbn [step]; try done.
  - destruct (swapBegin (session a) str) as [ses r] eqn:Hb.
    apply swapBegin_fields in Hb as (_ & _ & Hh & _). destruct r; cbn; congruence.
  - destruct (inflight a !! i) as [task|]; [|done].
    pose proof (resumeTask_fields (session a) task) as (Hh & _).
    destruct (resumeTask (session a) task) as [ses [task'|]]; cbn in *; congruence.
  - cbn [session]. destruct (render_fields (session a)) as [_ Hh]. congruence.
Qed.

Lemma step_coherent (a : Async) (e : Event) :
  coherent a →
  coherent (step a e) ∧
  blockModelLookup (session a) ⊆ blockModelLookup (session (step a e)).
Proof.
  intros [Hne Hvis]. destruct e as [str|i| | |sz|w h]; cbn [step]; try done.
  - destruct (swapBegin (session a) str) as [ses r] eqn:Hb.
    apply swapBegin_fields in Hb as (Hl & _).
    destruct r as [new|]; (split; [split|]); cbn [session inflight]; rewrite ?Hl;
      try done.
    apply Forall_app. split; [done|]. apply Forall_singleton, populateFrom_visible.
  - destruct (inflight a !! i) as [task|] eqn:Hi; [|done].
    pose proof (resumeTask_fields (session a) task) as (_ & Hl & Hv).
    assert (Htask : resolvingVisible task).
    { eapply Forall_forall; [exact Hvis|]. by eapply list_elem_of_lookup_2. }
    assert (Hgrow : blockModelLookup (session a) ⊆
                      blockModelLookup (resumeTask (session a) task).1 ∧
                    lookupNonEmpty (blockModelLookup (resumeTask (session a) task).1)).
    { rewrite Hl. destruct task as [new block rest|new|new pos block option rest|new];
        try done.
      destruct (resolveAndSet_lookup (blockModelLookup (session a))
                  (resolutions (session a)) block Hne) as [Hsub Hne'].
      split; [done|]. by apply Hne'. }
    destruct (resumeTask (session a) task) as [ses [task'|]]; cbn [fst snd] in *;
      (split; [split|]); cbn [session inflight]; try apply Hgrow.
    + by apply Forall_insert.
    + by apply Forall_delete.
  - destruct (render_fields (session a)) as [Hl _].
    split; [split|]; cbn [session inflight]; rewrite ?Hl; done.
Qed.

Lemma run_snoc (a : Async) (es : list Event) (e : Event) :
  run a (es ++ [e]) = step (run a es) e.
Proof. unfold run. by rewrite foldl_app. Qed.

Lemma run_coherent (a : Async) (es : list Event) :
  coherent a →
  coherent (run a es) ∧
  blockModelLookup (session a) ⊆ blockModelLookup (session (run a es)).
Proof.
  intros Hc. induction es as [|e es [IHc IHs]] using rev_ind; [done|].
  rewrite run_snoc. destruct (step_coherent (run a es) e IHc) as [Hc' Hs'].
  split; [done|]. by etrans.
Qed.

Lemma renderSchematic_coherent (schematic : string) (opts : SchematicRenderOptions)
    (ses : Session) :
  renderSchematic schematic opts = Some ses → coherent (mkAsync ses []).
Proof.
  intros Hr. split; [|by apply Forall_nil]. cbn [session].
  unfold renderSchematic in Hr. destruct (loadSchematic schematic) as [loaded|]; [|done].
  pose proof (updateBlockModelLookup_nonEmpty ∅ [] loaded) as Hne.
  destruct (updateBlockModelLookup ∅ [] loaded) as [lookup log].
  destruct (computeSchematicMesh _ _ _ _ _ _) as [sc cache].
  injection Hr as <-. cbn [blockModelLookup]. apply Hne.
  intros key md Hk. by rewrite lookup_empty in Hk.
Qed.

(** C7: no step of a session removes or replaces an entry of the lookup.
    In every state a session reaches from its first load, whatever the
    lookup binds before a call of swap, a resumption of a swap in flight, a
    frame, a destroy or a resize, it binds to the same model data
    afterwards; this holds with several swaps in flight. The synchronous
    head of a swap resets the model loader's cache and leaves the lookup as
    it is; the lookup of the first load is the population of the empty
    lookup. *)
Theorem blockModelLookup_only_grows :
  (∀ (schematic : string) (opts : SchematicRenderOptions) (ses : Session)
     (es : list Event) (e : Event),
     renderSchematic schematic opts = Some ses →
     blockModelLookup ses ⊆ blockModelLookup (session (run (mkAsync ses []) es)) ∧
     blockModelLookup (session (run (mkAsync ses []) es)) ⊆
       blockModelLookup (session (step (run (mkAsync ses []) es) e))) ∧
  (∀ (a : Async) (es : list Event),
     coherent a →
     blockModelLookup (session a) ⊆ blockModelLookup (session (run a es))) ∧
  (∀ (ses : Session) (str : string),
     blockModelLookup (swapBegin ses str).1 = blockModelLookup ses ∧
     modelCache (swapBegin ses str).1 = emptyModelCache) ∧
  (∀ (ses : Session) (str : string),
     blockModelLookup ses ⊆ blockModelLookup (swapSchematic ses str).1) ∧
  (∀ (ses : Session), blockModelLookup (destroy ses) = blockModelLookup ses) ∧
  (∀ (schematic : string) (opts : SchematicRenderOptions) (ses : Session)
     (loaded : Schematic.t),
     loadSchematic schematic = Some loaded →
     renderSchematic schematic opts = Some ses →
     blockModelLookup ses = (updateBlockModelLookup ∅ [] loaded).1).
Proof.
  split; [|split; [|split; [|split; [|split; [done|]]]]].
  - intros schematic opts ses es e Hr.
    apply renderSchematic_coherent in Hr.
    destruct (run_coherent _ es Hr) as [Hc Hs]. split; [done|].
    by apply step_coherent.
  - intros a es Hc. by apply run_coherent.
  - intros ses str. destruct (swapBegin ses str) as [ses1 r] eqn:Hb.
    apply swapBegin_fields in Hb as (Hl & Hc & _). by cbn [fst].
  - intros ses str. unfold swapSchematic.
    destruct (swapBegin ses str) as [ses1 r] eqn:Hb.
    apply swapBegin_fields in Hb as (Hl & _). destruct r as [new|]; cbn [fst].
    + destruct (swapAssemble_fields (swapPopulate ses1 new) new) as (-> & _).
      destruct (swapPopulate_fields ses1 new) as (_ & _ & _ & -> & _).
      destruct (updateBlockModelLookup_populated (blockModelLookup ses1)
                  (resolutions ses1) new) as (news & _ & Hsub & _).
      by rewrite <- Hl.
    + by rewrite Hl.
  - intros schematic opts ses loaded Hl Hr. unfold renderSchematic in Hr.
    rewrite Hl in Hr. destruct (updateBlockModelLookup ∅ [] loaded) as [lk lg].
    destruct (computeSchematicMesh _ _ _ _ _ _) as [sc cache].
    by injection Hr as <-.
Qed.

Lemma run_hasDestroyed (a : Async) (es : list Event) :
  hasDestroyed (session a) = true → hasDestroyed (session (run a es)) = true.
Proof.
  intros Hd. induction es as [|e es IH] using rev_ind; [done|].
  rewrite run_snoc. by apply step_hasDestroyed.
Qed.

(** *** A swap alone in flight is the swap awaited *)

Lemma foldl_lookupStep_next (st : gmap string BlockModelData * list Block)
    (blocks : list Block) :
  foldl lookupStep st blocks =
    match nextToResolve st.1 blocks with
    | Some (block, rest) => foldl lookupStep (resolveAndSet st block) rest
    | None => st
    end.
Proof.
  induction blocks as [|b bs IH]; cbn [foldl nextToResolve]; [done|].
  unfold lookupStep at 2. destruct (decide (type b ∈ INVISIBLE_BLOCKS)); [done|].
  by destruct (st.1 !! hashBlockForMap b).
Qed.

Lemma foldl_voxelStep_next (new : Schematic.t) (lookup : gmap string BlockModelData)
    (tx ty tz : Q) (st : Scene * ModelCache) (ps : list BlockVector3) :
  foldl (voxelStep new lookup tx ty tz) st ps =
    match nextToMaterialise new lookup ps with
    | Some (pos, block, modelData, rest) =>
        foldl (voxelStep new lookup tx ty tz)
          (materialise tx ty tz st pos block (getModelOption modelData)) rest
    | None => st
    end.
Proof.
  induction ps as [|pos ps IH]; cbn [foldl nextToMaterialise]; [done|].
  unfold voxelStep at 2. by destruct (voxelModel new lookup pos) as [[block modelData]|].
Qed.

Lemma nextToMaterialise_length (new : Schematic.t) (lookup : gmap string BlockModelData)
    (ps rest : list BlockVector3) (pos : BlockVector3) (block : Block)
    (modelData : BlockModelData) :
  nextToMaterialise new lookup ps = Some (pos, block, modelData, rest) →
  (length rest < length ps)%nat.
Proof.
  induction ps as [|p ps IH]; cbn [nextToMaterialise]; [done|].
  destruct (voxelModel new lookup p) as [[b md]|].
  - intros [= _ _ _ <-]. cbn. lia.
  - intros H. specialize (IH H). cbn. lia.
Qed.

Lemma run_cons (a : Async) (e : Event) (es : list Event) :
  run a (e :: es) = run (step a e) es.
Proof. done. Qed.

Lemma step_resume_idle (ses : Session) : step (mkAsync ses []) (Resume 0) = mkAsync ses [].
Proof. done. Qed.

Lemma step_resume_single (ses : Session) (task : SwapTask) :
  step (mkAsync ses [task]) (Resume 0) =
    match resumeTask ses task with
    | (ses', Some task') => mkAsync ses' [task']
    | (ses', None) => mkAsync ses' []
    end.
Proof.
  destruct (resumeTask ses task) as [ses' [task'|]] eqn:Hr;
    cbn [step session inflight]; change ([task] !! 0%nat) with (Some task);
    cbn match; by rewrite Hr.
Qed.

Lemma run_resume_idle (ses : Session) (n : nat) :
  run (mkAsync ses []) (replicate n (Resume 0)) = mkAsync ses [].
Proof.
  induction n as [|n IH]; [done|].
  cbn [replicate]. by rewrite run_cons, step_resume_idle.
Qed.

Lemma run_resume_settle (n : nat) (ses : Session) (task : SwapTask) :
  run (mkAsync ses [task]) (replicate n (Resume 0)) =
    match settle n ses task with
    | (ses', Some task') => mkAsync ses' [task']
    | (ses', None) => mkAsync ses' []
    end.
Proof.
  revert ses task. induction n as [|n IH]; intros ses task; [done|].
  cbn [replicate settle]. rewrite run_cons, step_resume_single.
  destruct (resumeTask ses task) as [ses' [task'|]].
  - apply IH.
  - apply run_resume_idle.
Qed.

Lemma settle_assembly (new : Schematic.t) (k : nat) :
  ∀ (ps : list BlockVector3) (ses : Session),
    (length ps ≤ k)%nat →
    ∃ n,
      settle n (assembleFrom new ses ps).1 (assembleFrom new ses ps).2 =
        (swapEnd
           (setAssembly ses
              (let st :=
                 foldl (voxelStep new (blockModelLookup ses)
                          (centreOffset (Schematic.width new))
                          (centreOffset (Schematic.height new))
                          (centreOffset (Schematic.length new)))
                   (scene ses, modelCache ses) ps in
               (setBlockMaterialDirtyMechanism st.1 false, st.2))),
         None).
Proof.
  induction k as [|k IH]; intros ps ses Hlen; rewrite foldl_voxelStep_next;
    unfold assembleFrom;
    destruct (nextToMaterialise new (blockModelLookup ses) ps)
      as [[[[pos block] modelData] rest]|] eqn:Hn;
    try (by exists 1%nat).
  - apply nextToMaterialise_length in Hn. lia.
  - apply nextToMaterialise_length in Hn.
    destruct (materialise (centreOffset (Schematic.width new))
                (centreOffset (Schematic.height new))
                (centreOffset (Schematic.length new))
                (scene ses, modelCache ses) pos block (getModelOption modelData))
      as [sc cache] eqn:Hm.
    destruct (IH rest (setAssembly ses (sc, cache))) as [n Hsettle]; [lia|].
    exists (S n). cbn [fst snd settle resumeTask]. rewrite Hm.
    destruct (assembleFrom new (setAssembly ses (sc, cache)) rest) as [ses2 task2].
    exact Hsettle.
Qed.

Lemma settle_population (new : Schematic.t) (k : nat) :
  ∀ (blocks : list Block) (ses : Session),
    (length blocks ≤ k)%nat →
    ∃ n,
      settle n ses (populateFrom new ses blocks) =
        (swapAssemble
           (setPopulation ses
              (foldl lookupStep (blockModelLookup ses, resolutions ses) blocks))
           new,
         None).
Proof.
  induction k as [|k IH]; intros blocks ses Hlen; rewrite foldl_lookupStep_next;
    unfold populateFrom; cbn [fst];
    destruct (nextToResolve (blockModelLookup ses) blocks) as [[block rest]|] eqn:Hn.
  - apply nextToResolve_Some in Hn as (_ & _ & Hn). lia.
  - destruct (settle_assembly new (length (positions new)) (positions new)
                (setScene ses (setBlockMaterialDirtyMechanism (scene ses) true)))
      as [n Hsettle]; [done|].
    exists (S n). cbn [settle resumeTask].
    destruct (assembleFrom new _ (positions new)) as [ses2 task2].
    cbn [fst snd] in Hsettle. by rewrite Hsettle.
  - apply nextToResolve_Some in Hn as (_ & _ & Hn).
    destruct (resolveAndSet (blockModelLookup ses, resolutions ses) block)
      as [lookup' log'] eqn:Hr.
    destruct (IH rest (setPopulation ses (lookup', log'))) as [n Hsettle]; [lia|].
    exists (S n). cbn [settle resumeTask]. rewrite Hr. exact Hsettle.
  - destruct (settle_assembly new (length (positions new)) (positions new)
                (setScene ses (setBlockMaterialDirtyMechanism (scene ses) true)))
      as [n Hsettle]; [done|].
    exists (S n). cbn [settle resumeTask].
    destruct (assembleFrom new _ (positions new)) as [ses2 task2].
    cbn [fst snd] in Hsettle. by rewrite Hsettle.
Qed.

Lemma swap_alone (ses : Session) (str : string) :
  ∃ n,
    run (mkAsync ses []) (Call str :: replicate n (Resume 0)) =
      mkAsync (swapSchematic ses str).1 [].
Proof.
  unfold swapSchematic.
  destruct (swapBegin ses str) as [ses1 [new|]] eqn:Hb.
  - destruct (settle_population new (length (Schematic.blockTypes new))
                (Schematic.blockTypes new) ses1) as [n Hn]; [done|].
    exists n. rewrite run_cons. cbn [step session inflight]. rewrite Hb.
    cbn [app fst]. rewrite run_resume_settle, Hn. f_equal. f_equal.
    unfold swapPopulate, updateBlockModelLookup.
    by destruct (foldl lookupStep _ _).
  - exists 0%nat. rewrite run_cons. cbn [step session inflight]. by rewrite Hb.
Qed.

(** *** A swap that runs alone shows the new structure *)





(** *** After [destroy] *)

(** C8: [render] is guarded by [hasDestroyed], [swapSchematic] is not. Once
    [destroy] has been called, whatever calls and resumptions follow, a
    frame leaves the whole session state as it is. A swap called on the
    destroyed session is no such no-op: [engine.dispose()] has left the
    scene without a mesh, so the swap clears the model loader's cache,
    parses its input, finds no mesh named 'ground' at line 356 and throws
    at [groundMesh.dispose()]. *)
Theorem swap_after_destroy_faults (a : Async) (es : list Event) (str : string)
    (new : Schematic.t) :
  (∀ sc, meshes (engineDispose sc) = []) →
  loadSchematic str = Some new →
  let a' := run (step a Destroy) es in
  let destroyed := session (step a Destroy) in
  (hasDestroyed (session a') = true ∧
   step a' Frame = a' ∧
   ∀ n : nat, Nat.iter n render (session a') = session a') ∧
  (hasDestroyed destroyed = true ∧
   renderLoop destroyed = false ∧
   meshes (scene destroyed) = []) ∧
  ((swapSchematic destroyed str).2 = Faulted ∧
   modelCache (swapSchematic destroyed str).1 = emptyModelCache ∧
   step (step a Destroy) (Call str) =
     mkAsync (swapSchematic destroyed str).1 (inflight a)).
Proof.
  intros Hempty Hload. cbn zeta. split; [|split].
  - set (a' := run (step a Destroy) es).
    assert (Hd : hasDestroyed (session a') = true) by (by apply run_hasDestroyed).
    assert (Hr : render (session a') = session a') by (unfold render; by rewrite Hd).
    split; [done|]. split.
    + cbn [step]. rewrite Hr. by destruct a'.
    + intros n. induction n as [|n IH]; [done|]. by rewrite Nat.iter_succ, IH.
  - cbn [step session destroy hasDestroyed renderLoop scene]. by rewrite Hempty.
  - assert (swapBegin (destroy (session a)) str =
            ((swapSchematic (destroy (session a)) str).1, None) ∧
            (swapSchematic (destroy (session a)) str).2 = Faulted ∧
            modelCache (swapSchematic (destroy (session a)) str).1 = emptyModelCache)
      as (Hb & Hf & Hc).
    { unfold swapSchematic, swapBegin. rewrite Hload.
      assert (purgeInstancedMeshes (scene (destroy (session a))) =
              scene (destroy (session a))) as ->.
      { unfold purgeInstancedMeshes. cbn [destroy scene]. by rewrite Hempty. }
      cbn [destroy scene]. by rewrite Hempty. }
    cbn [step session inflight]. rewrite Hf, Hc. split; [done|]. split; [done|].
    by rewrite Hb.
Qed.

Lemma step_inflight_le (a : Async) (e : Event) :
  (match e with Call _ => inflight a = [] | _ => True end) →
  (length (inflight a) ≤ 1)%nat → (length (inflight (step a e)) ≤ 1)%nat.
Proof.
  intros Hcall Hlen. destruct e as [str|i| | |sz|w h]; cbn [step]; try done.
  - destruct (swapBegin (session a) str) as [ses [new|]]; cbn [inflight];
      rewrite Hcall; cbn; lia.
  - destruct (inflight a !! i) as [task|] eqn:Hi; [|done].
    destruct (resumeTask (session a) task) as [ses [task'|]]; cbn [inflight].
    + by rewrite length_insert.
    + rewrite length_delete by (by rewrite Hi). lia.
Qed.

(** C9 (as amended): the session does not serialise swaps. A call of
    [swapSchematic] runs its synchronous head and joins the swaps in flight
    whatever is already in flight; at most one swap is in flight only when
    the caller issues a swap after the one before has finished. A swap that
    stays alone in flight ends in the state of the swap awaited. *)
Theorem swap_calls_unguarded :
  (∀ (a : Async) (str : string) (ses : Session) (new : Schematic.t),
     swapBegin (session a) str = (ses, Some new) →
     step a (Call str) =
       mkAsync ses (inflight a ++ [populateFrom new ses (Schematic.blockTypes new)])) ∧
  (∀ (es : list Event) (a : Async),
     (length (inflight a) ≤ 1)%nat → awaited a es →
     (length (inflight (run a es)) ≤ 1)%nat) ∧
  (∀ (ses : Session) (str : string),
     ∃ n, run (mkAsync ses []) (Call str :: replicate n (Resume 0)) =
            mkAsync (swapSchematic ses str).1 []).
Proof.
  split; [|split].
  - intros a str ses new Hb. cbn [step]. by rewrite Hb.
  - intros es. induction es as [|e es IH]; intros a Hlen Haw; [done|].
    cbn [run foldl]. destruct Haw as [He Haw]. apply IH; [|done].
    by apply step_inflight_le.
  - apply swap_alone.
Qed.

(** C10: in every state a session reaches from its first load, with any
    number of swaps in flight, each entry of the lookup holds at least one
    model and belongs to a block type that is not invisible, and no
    invisible type has an entry; a block type that resolves to no model
    leaves no entry; and the assembly passes over a voxel whose key is
    absent from the lookup, leaving scene and loader cache as they were. *)
Theorem lookup_entries_nonEmpty :
  (∀ (schematic : string) (opts : SchematicRenderOptions) (ses : Session)
     (es : list Event),
     renderSchematic schematic opts = Some ses →
     lookupNonEmpty (blockModelLookup (session (run (mkAsync ses []) es))) ∧
     ∀ block, type block ∈ INVISIBLE_BLOCKS →
       blockModelLookup (session (run (mkAsync ses []) es))
         !! hashBlockForMap block = None) ∧
  (∀ (lookup : gmap string BlockModelData) (log : list Block) (s : Schematic.t)
     (key : string),
     lookup !! key = None →
     (∀ b, b ∈ Schematic.blockTypes s → hashBlockForMap b = key →
           models (resolveBlock b) = []) →
     (updateBlockModelLookup lookup log s).1 !! key = None) ∧
  (∀ (s : Schematic.t) (lookup : gmap string BlockModelData) (tx ty tz : Q)
     (st : Scene * ModelCache) (pos : BlockVector3) (block : Block),
     getBlock s pos = Some block →
     lookup !! hashBlockForMap block = None →
     voxelModel s lookup pos = None ∧ voxelStep s lookup tx ty tz st pos = st).
Proof.
  split; [|split].
  - intros schematic opts ses es Hr.
    apply renderSchematic_coherent in Hr.
    destruct (run_coherent _ es Hr) as [[Hne _] _]. split; [done|].
    intros block Hinv.
    destruct (_ !! hashBlockForMap block) as [modelData|] eqn:Hk; [|done].
    destruct (Hne _ _ Hk) as (_ & block' & Hkey & _ & Hvis).
    by apply hashBlockForMap_inj in Hkey as ->.
  - intros lookup log s key Hnone Hempty.
    destruct (updateBlockModelLookup_populated lookup log s)
      as (news & _ & _ & Hnews & _ & _ & Hent).
    destruct ((updateBlockModelLookup lookup log s).1 !! key) as [md|] eqn:E; [|done].
    destruct (Hent _ _ E) as [Hk|(Hne & b & Hb & -> & ->)]; [congruence|].
    destruct (Hnews b Hb) as (Hbs & _ & _). by rewrite (Hempty b Hbs eq_refl) in Hne.
  - intros s lookup tx ty tz st pos block Hb Hnone.
    assert (voxelModel s lookup pos = None) as Hv.
    { unfold voxelModel. rewrite Hb, Hnone. by case_decide. }
    split; [done|]. unfold voxelStep. by rewrite Hv.
Qed.

(** ** Further properties of the renderer *)

Lemma updateBlockModelLookup_stable (lookup : gmap string BlockModelData)
    (log log2 : list Block) (s : Schematic.t) :
  (updateBlockModelLookup (updateBlockModelLookup lookup log s).1 log2 s).1 =
    (updateBlockModelLookup lookup log s).1.
Proof.
  destruct (updateBlockModelLookup_populated lookup log s)
    as (news & _ & _ & _ & Hrec & _ & _).
  destruct (updateBlockModelLookup_populated
              (updateBlockModelLookup lookup log s).1 log2 s)
    as (news2 & _ & Hsub2 & Hnews2 & _ & _ & Hent2).
  apply map_eq. intros key.
  destruct ((updateBlockModelLookup lookup log s).1 !! key) as [md|] eqn:H1.
  - by apply (lookup_weaken _ _ _ _ H1).
  - destruct ((updateBlockModelLookup _ log2 s).1 !! key) as [md|] eqn:H2;
      [exfalso|done].
    destruct (Hent2 _ _ H2) as [Hk|(Hne & b & Hb & -> & ->)]; [congruence|].
    destruct (Hnews2 b Hb) as (Hbs & Hinv & _).
    destruct (Hrec b Hbs Hinv Hne) as [md' Hmd']. congruence.
Qed.

(** X1: loading the same structure a second time leaves the lookup as the
    first load left it: nothing is added, removed or replaced. The only
    block types the second load resolves are types of the structure that
    resolve to no model. *)
Theorem updateBlockModelLookup_again (lookup : gmap string BlockModelData)
    (log log2 : list Block) (s : Schematic.t) :
  (updateBlockModelLookup (updateBlockModelLookup lookup log s).1 log2 s).1 =
    (updateBlockModelLookup lookup log s).1 ∧
  ∃ news,
    (updateBlockModelLookup (updateBlockModelLookup lookup log s).1 log2 s).2 =
      log2 ++ news ∧
    ∀ b, b ∈ news → b ∈ Schematic.blockTypes s ∧ models (resolveBlock b) = [].
Proof.
  split; [apply updateBlockModelLookup_stable|].
  destruct (updateBlockModelLookup_populated lookup log s)
    as (news & _ & _ & _ & Hrec & _ & _).
  destruct (updateBlockModelLookup_populated
              (updateBlockModelLookup lookup log s).1 log2 s)
    as (news2 & Hlog2 & _ & Hnews2 & _ & _ & _).
  exists news2. split; [done|]. intros b Hb.
  destruct (Hnews2 b Hb) as (Hbs & Hinv & Hnone). split; [done|].
  destruct (models (resolveBlock b)) as [|m ms] eqn:Hm; [done|]. exfalso.
  destruct (Hrec b Hbs Hinv) as [md Hmd]; [by rewrite Hm|]. congruence.
Qed.

Lemma swapSchematic_unparsed (ses : Session) (str : string) :
  loadSchematic str = None →
  swapSchematic ses str =
    (mkSession (blockModelLookup ses) emptyModelCache
       (purgeInstancedMeshes (scene ses)) (hasDestroyed ses) (engineDisposed ses)
       (engineSize ses) (renderLoop ses) (resolutions ses),
     Faulted).
Proof. intros Hl. unfold swapSchematic, swapBegin. by rewrite Hl. Qed.

Lemma plainMeshes_purge (sc : Scene) :
  plainMeshes (purgeInstancedMeshes sc) = plainMeshes sc.
Proof.
  unfold plainMeshes. rewrite purgeInstancedMeshes_meshes.
  induction (meshes sc) as [|m ms IH]; [done|]. cbn [List.filter].
  destruct (instanced m) eqn:Hi; cbn [negb List.filter]; [done|].
  by rewrite Hi, IH.
Qed.

(** X2: a swap whose input does not parse throws only after the fragments
    on display have been removed and disposed and the model loader's cache
    cleared: the scene is left without any instanced mesh, its plain meshes
    (the ground among them) and the lookup are as before, and the render
    loop is not touched. *)
Theorem swapSchematic_unparseable (ses : Session) (str : string) :
  loadSchematic str = None →
  (swapSchematic ses str).2 = Faulted ∧
  activeMeshes (scene (swapSchematic ses str).1) = [] ∧
  plainMeshes (scene (swapSchematic ses str).1) = plainMeshes (scene ses) ∧
  disposedMeshes (scene (swapSchematic ses str).1) =
    disposedMeshes (scene ses) ++ activeMeshes (scene ses) ∧
  modelCache (swapSchematic ses str).1 = emptyModelCache ∧
  blockModelLookup (swapSchematic ses str).1 = blockModelLookup ses ∧
  renderLoop (swapSchematic ses str).1 = renderLoop ses.
Proof.
  intros Hl. rewrite (swapSchematic_unparsed ses str Hl). cbn [fst snd scene
    modelCache blockModelLookup renderLoop].
  split; [done|]. split; [|split; [apply plainMeshes_purge|split; [|done]]].
  - unfold activeMeshes. apply filter_all_false. intros m Hm.
    rewrite purgeInstancedMeshes_meshes in Hm.
    apply list_elem_of_In, filter_In in Hm as [_ Hm]. by destruct (instanced m).
  - apply purgeInstancedMeshes_disposed.
Qed.

Lemma voxelModel_culled (s : Schematic.t) (lookup : gmap string BlockModelData)
    (pos : BlockVector3) :
  (∀ block, getBlock s pos = Some block →
     type block ∈ INVISIBLE_BLOCKS ∨ lookup !! hashBlockForMap block = None ∨
     ∀ face, ¬ exposingFace s pos face) →
  voxelModel s lookup pos = None.
Proof.
  intros H. unfold voxelModel. destruct (getBlock s pos) as [block|]; [|done].
  destruct (H block eq_refl) as [Hi|[Hn|He]].
  - by rewrite decide_True.
  - rewrite Hn. by destruct (decide _).
  - destruct (decide _); [done|]. destruct (lookup !! _); [|done].
    destruct (faceLoop s pos POSSIBLE_FACES).1 eqn:Hf; [|done]. exfalso.
    apply faceLoop_anyVisible in Hf as (face & _ & Hf).
    apply exposing_iff in Hf. by eapply He.
Qed.

(** X6: a structure with nothing to draw costs nothing. When every voxel of
    the grid is empty, of an invisible type, of a type without an entry in
    the lookup, or enclosed on all six sides, the assembly adds no mesh and
    never calls the model loader: scene and loader cache come back as they
    went in. *)
Theorem computeSchematicMesh_nothing_to_draw (s : Schematic.t)
    (lookup : gmap string BlockModelData) (sc : Scene) (cache : ModelCache)
    (worldWidth worldHeight worldLength : Z) :
  (∀ pos block, pos ∈ positions s → getBlock s pos = Some block →
     type block ∈ INVISIBLE_BLOCKS ∨ lookup !! hashBlockForMap block = None ∨
     ∀ face, ¬ exposingFace s pos face) →
  computeSchematicMesh s lookup (sc, cache) worldWidth worldHeight worldLength =
    (setBlockMaterialDirtyMechanism sc false, cache).
Proof.
  intros H. unfold computeSchematicMesh. cbn [fst snd].
  assert (∀ ps st, (∀ pos, pos ∈ ps → pos ∈ positions s) →
            foldl (voxelStep s lookup (centreOffset worldWidth)
                     (centreOffset worldHeight) (centreOffset worldLength)) st ps = st)
    as Hfold.
  { induction ps as [|pos ps IH]; intros st Hps; cbn [foldl]; [done|].
    unfold voxelStep at 2. rewrite voxelModel_culled.
    - apply IH. intros p Hp. apply Hps. by right.
    - intros block. apply H, Hps. left. }
  by rewrite Hfold.
Qed.

(** X7: [disableAutoRender] holds until the first swap. A session started
    with the option has no render loop running; a swap that completes starts
    it (line 380 has no test of the option), a swap that throws does not. *)
Theorem swap_starts_render_loop (schematic str : string)
    (opts : SchematicRenderOptions) (ses : Session) :
  renderSchematic schematic opts = Some ses →
  disableAutoRender opts = true →
  renderLoop ses = false ∧
  renderLoop (swapSchematic ses str).1 =
    match (swapSchematic ses str).2 with Completed => true | Faulted => false end.
Proof.
  intros Hr Hd. unfold renderSchematic in Hr.
  destruct (loadSchematic schematic) as [loaded|]; [|done].
  destruct (updateBlockModelLookup ∅ [] loaded) as [lookup log].
  destruct (computeSchematicMesh _ _ _ _ _ _) as [sc cache].
  injection Hr as <-. cbn [renderLoop]. rewrite Hd. split; [done|].
  unfold swapSchematic, swapBegin.
  destruct (loadSchematic str) as [new|]; [|done].
  destruct (List.find _ _) as [ground|]; [|done].
  cbn [fst snd]. unfold swapAssemble.
  by destruct (computeSchematicMesh _ _ _ _ _ _).
Qed.

(** *** Swaps in flight run to their end *)

Lemma nextToMaterialise_shorter (new : Schematic.t)
    (lookup : gmap string BlockModelData) (ses : Session) (ps : list BlockVector3) :
  (remaining (assembleFrom new ses ps).2 < length ps + 2)%nat.
Proof.
  unfold assembleFrom.
  destruct (nextToMaterialise new (blockModelLookup ses) ps)
    as [[[[pos block] modelData] rest]|] eqn:Hn; cbn [snd remaining]; [|lia].
  apply nextToMaterialise_length in Hn. lia.
Qed.

Lemma resumeTask_remaining (ses ses' : Session) (task task' : SwapTask) :
  resumeTask ses task = (ses', Some task') → (remaining task' < remaining task)%nat.
Proof.
  destruct task as [new block rest|new|new pos block option rest|new];
    cbn [resumeTask remaining].
  - intros [= _ <-]. unfold populateFrom.
    destruct (nextToResolve _ rest) as [[block' rest']|] eqn:Hn; cbn [remaining]; [|lia].
    apply nextToResolve_Some in Hn as (_ & _ & Hn). lia.
  - pose proof (nextToMaterialise_shorter new (blockModelLookup ses)
                  (setScene ses (setBlockMaterialDirtyMechanism (scene ses) true))
                  (positions new)) as Hlt.
    destruct (assembleFrom new _ (positions new)) as [ses2 task2].
    intros [= _ <-]. exact Hlt.
  - set (ses1 := setAssembly ses _).
    pose proof (nextToMaterialise_shorter new (blockModelLookup ses1) ses1 rest) as Hlt.
    destruct (assembleFrom new ses1 rest) as [ses2 task2].
    intros [= _ <-]. exact Hlt.
  - done.
Qed.

Lemma remaining_pos (task : SwapTask) : (0 < remaining task)%nat.
Proof. destruct task; cbn [remaining]; lia. Qed.

Lemma remainingAll_insert (tasks : list SwapTask) (i : nat) (task task' : SwapTask) :
  tasks !! i = Some task → (remaining task' < remaining task)%nat →
  (remainingAll (<[i := task']> tasks) < remainingAll tasks)%nat.
Proof.
  revert i. induction tasks as [|t tasks IH]; intros [|i] Hi Hlt; try done.
  - injection Hi as ->. cbn [insert list_insert remainingAll]. lia.
  - specialize (IH i Hi Hlt). cbn [insert list_insert remainingAll].
    apply Nat.add_lt_mono_l. exact IH.
Qed.

Lemma remainingAll_delete (tasks : list SwapTask) (i : nat) (task : SwapTask) :
  tasks !! i = Some task →
  (remainingAll (delete i tasks) < remainingAll tasks)%nat.
Proof.
  revert i. induction tasks as [|t tasks IH]; intros [|i] Hi; try done.
  - injection Hi as ->. pose proof (remaining_pos task).
    cbn [delete list_delete remainingAll]. lia.
  - specialize (IH i Hi). cbn [delete list_delete remainingAll].
    apply Nat.add_lt_mono_l. exact IH.
Qed.

Lemma step_resume_work (a : Async) (i : nat) :
  is_Some (inflight a !! i) → (work (step a (Resume i)) < work a)%nat.
Proof.
  intros [task Hi]. unfold work. cbn [step]. rewrite Hi.
  destruct (resumeTask (session a) task) as [ses' [task'|]] eqn:Hr; cbn [inflight].
  - apply (remainingAll_insert _ _ task); [done|]. by eapply resumeTask_remaining.
  - by apply (remainingAll_delete _ _ task).
Qed.

(** X21: swaps in flight run to their end. Every resumption of a swap in
    flight, whichever it is and whatever ran in between, brings the session
    closer to rest: a swap needs at most one resumption for each block type
    and each voxel of its structure, and three more. Frames, [destroy] and
    resizing neither add to the work left nor take from it, so from any
    state finitely many resumptions leave no swap in flight. *)
Theorem swaps_in_flight_finish (a : Async) :
  (∀ i, is_Some (inflight a !! i) → (work (step a (Resume i)) < work a)%nat) ∧
  (∀ new ses,
     (remaining (populateFrom new ses (Schematic.blockTypes new)) ≤
        length (Schematic.blockTypes new) + length (positions new) + 3)%nat) ∧
  (∀ e, (∀ str, e ≠ Call str) → (∀ i, e ≠ Resume i) → work (step a e) = work a) ∧
  ∃ n, (n ≤ work a)%nat ∧ inflight (run a (replicate n (Resume 0))) = [].
Proof.
  split; [apply step_resume_work|]. split; [|split].
  - intros new ses. unfold populateFrom.
    destruct (nextToResolve _ _) as [[block rest]|] eqn:Hn; cbn [remaining]; [|lia].
    apply nextToResolve_Some in Hn as (_ & _ & Hn). lia.
  - intros [str|i| | |sz|w h] Hcall Hresume; try done.
    + by destruct (Hcall str).
    + by destruct (Hresume i).
  - remember (work a) as k eqn:Hk. assert (work a ≤ k)%nat as Hle by lia.
    clear Hk. revert a Hle. induction k as [|k IH]; intros a Hle.
    + exists 0%nat. split; [done|]. cbn [replicate]. unfold run. cbn [foldl].
      destruct (inflight a) as [|task tasks] eqn:Hi; [done|].
      pose proof (remaining_pos task). unfold work in Hle. rewrite Hi in Hle.
      cbn [remainingAll] in Hle. lia.
    + destruct (inflight a) as [|task tasks] eqn:Hi.
      * exists 0%nat. split; [lia|]. unfold run. by cbn [replicate foldl].
      * pose proof (step_resume_work a 0) as Hlt. rewrite Hi in Hlt.
        specialize (Hlt ltac:(by eexists)).
        destruct (IH (step a (Resume 0))) as (n & Hn & Hdone); [lia|].
        exists (S n). split; [lia|]. cbn [replicate]. by rewrite run_cons.
Qed.

End Renderer.

(** ** The resource loader: precedence between archives *)

(** The blob scan returns the entry of the first archive that defines the
    path. *)
Lemma scanBlob_firstDefined (zs : list ResourceLoader.JSZip) (path : string) :
  ResourceLoader.scanBlob zs path None =
    ResourceLoader.mkBlob <$> ResourceLoader.firstDefined zs path.
Proof.
  induction zs as [|z zs IH]; cbn [ResourceLoader.scanBlob ResourceLoader.firstDefined];
    [done|].
  unfold ResourceLoader.fileBlob. destruct (z !! path) as [content|]; cbn; [done|].
  (* nothing read in this round: the next round starts from [undefined] *)
  exact IH.
Qed.

(** So does the text scan, as long as no archive holds an empty entry for
    the path. *)
Lemma scanString_firstDefined (zs : list ResourceLoader.JSZip) (path : string) :
  (∀ z, z ∈ zs → z !! path ≠ Some "") →
  ResourceLoader.scanString zs path None = ResourceLoader.firstDefined zs path.
Proof.
  induction zs as [|z zs IH]; intros Hne;
    cbn [ResourceLoader.scanString ResourceLoader.firstDefined]; [done|].
  unfold ResourceLoader.fileString.
  destruct (z !! path) as [content|] eqn:Hz; cbn [ResourceLoader.truthyString].
  - destruct (String.eqb content "") eqn:He; [|done].
    apply String.eqb_eq in He. subst content. exfalso. apply (Hne z); [left|done].
  - apply IH. intros z' Hz'. apply Hne. by right.
Qed.

Lemma getResourceBlob_first_archive (zs : list ResourceLoader.JSZip) (name : string) :
  let r :=
    ResourceLoader.getResourceBlob
      (ResourceLoader.getResourceLoader (ResourceLoader.Many zs)) name in
  match ResourceLoader.firstDefined zs (ResourceLoader.assetPath name) with
  | Some content =>
      ∃ url, r.1 = Some url ∧
             ResourceLoader.objectURLs r.2 !! url = Some (ResourceLoader.mkBlob content)
  | None => r.1 = None
  end.
Proof.
  cbn zeta. unfold ResourceLoader.getResourceBlob, ResourceLoader.getResourceLoader.
  cbn [ResourceLoader.blobCache ResourceLoader.zip]. rewrite lookup_empty.
  rewrite scanBlob_firstDefined.
  destruct (ResourceLoader.firstDefined zs _) as [content|]; cbn; [|done].
  eexists. split; [done|]. apply lookup_insert_eq.
Qed.

Lemma getResourceString_first_archive (zs : list ResourceLoader.JSZip) (name : string) :
  (∀ z, z ∈ zs → z !! ResourceLoader.assetPath name ≠ Some "") →
  (ResourceLoader.getResourceString
     (ResourceLoader.getResourceLoader (ResourceLoader.Many zs)) name).1 =
    ResourceLoader.firstDefined zs (ResourceLoader.assetPath name).
Proof.
  intros Hne. unfold ResourceLoader.getResourceString, ResourceLoader.getResourceLoader.
  cbn [ResourceLoader.stringCache ResourceLoader.zip]. rewrite lookup_empty.
  cbn [fst]. by apply scanString_firstDefined.
Qed.

(** C5: an archive list whose first archive holds an empty text entry for a
    path and whose second archive holds a non-empty one: [getResourceString]
    returns the second archive's entry and memoizes it, although the first
    archive defines the path; [getResourceBlob] on the same archives returns
    a URL for the first archive's entry. *)
Theorem getResourceString_skips_empty_entry :
  let primary : ResourceLoader.JSZip :=
    {[ "assets/minecraft/blockstates/stone.json" := "" ]} in
  let overlay : ResourceLoader.JSZip :=
    {[ "assets/minecraft/blockstates/stone.json" := "{}" ]} in
  let loader := ResourceLoader.getResourceLoader (ResourceLoader.Many [primary; overlay]) in
  let name := "blockstates/stone.json" in
  ResourceLoader.firstDefined [primary; overlay] (ResourceLoader.assetPath name)
    = Some "" ∧
  (ResourceLoader.getResourceString loader name).1 = Some "{}" ∧
  ResourceLoader.stringCache (ResourceLoader.getResourceString loader name).2 !! name
    = Some (Some "{}") ∧
  (∃ url,
     (ResourceLoader.getResourceBlob loader name).1 = Some url ∧
     ResourceLoader.objectURLs (ResourceLoader.getResourceBlob loader name).2 !! url
       = Some (ResourceLoader.mkBlob "")).
Proof.
  cbn zeta. split; [reflexivity|]. split; [reflexivity|]. split; [reflexivity|].
  eexists. split; reflexivity.
Qed.

(** ** The resource loader: caches and archives *)

Section LoaderHistory.
Import ResourceLoader.

Lemma getResourceString_miss (ld : t) (name : string) :
  stringCache ld !! name = None →
  getResourceString ld name =
    (archiveText (zip ld) (assetPath name),
     mk (zip ld) (<[name := archiveText (zip ld) (assetPath name)]> (stringCache ld))
       (blobCache ld) (objectURLs ld)).
Proof. intros H. unfold getResourceString. rewrite H. by destruct (zip ld). Qed.

Lemma getResourceBlob_miss (ld : t) (name : string) :
  blobCache ld !! name = None →
  getResourceBlob ld name =
    match archiveBlob (zip ld) (assetPath name) with
    | None =>
        (None, mk (zip ld) (stringCache ld) (<[name := None]> (blobCache ld))
                 (objectURLs ld))
    | Some blob =>
        (Some (createObjectURL ld),
         mk (zip ld) (stringCache ld)
           (<[name := Some (createObjectURL ld)]> (blobCache ld))
           (<[createObjectURL ld := blob]> (objectURLs ld)))
    end.
Proof. intros H. unfold getResourceBlob. rewrite H. by destruct (zip ld). Qed.

Lemma createObjectURL_fresh (z : Zip) (ld : t) :
  cachesAgree z ld → objectURLs ld !! createObjectURL ld = None.
Proof.
  intros (_ & _ & _ & Hreg).
  destruct (objectURLs ld !! createObjectURL ld) as [blob|] eqn:Hu; [|done].
  destruct (Hreg (createObjectURL ld)) as (k & Hk & Heq); [by eexists|].
  unfold createObjectURL in Heq. apply (inj (String.append _)) in Heq.
  apply (inj pretty) in Heq. lia.
Qed.

Lemma cachesAgree_fresh (z : Zip) : cachesAgree z (getResourceLoader z).
Proof.
  unfold getResourceLoader. split; [done|].
  cbn [stringCache blobCache objectURLs].
  split; [|split].
  - intros name v. by rewrite lookup_empty.
  - intros name v. by rewrite lookup_empty.
  - intros url [blob Hblob]. by rewrite lookup_empty in Hblob.
Qed.

Lemma serve_cachesAgree (z : Zip) (ld : t) (r : Request) :
  cachesAgree z ld → cachesAgree z (serve ld r).
Proof.
  intros Hagree. pose proof (createObjectURL_fresh z ld Hagree) as Hfresh.
  destruct Hagree as (Hz & Hs & Hb & Hreg).
  destruct r as [name|name|]; cbn [serve].
  - destruct (stringCache ld !! name) as [cached|] eqn:Hc.
    + unfold getResourceString. by rewrite Hc.
    + rewrite (getResourceString_miss ld name Hc). cbn [snd]. rewrite Hz.
      split; [done|]. cbn [stringCache blobCache objectURLs].
      split; [|done]. intros n v.
      destruct (decide (n = name)) as [->|Hn].
      * rewrite lookup_insert_eq. by intros [= <-].
      * rewrite lookup_insert_ne by done. apply Hs.
  - destruct (blobCache ld !! name) as [cached|] eqn:Hc.
    + unfold getResourceBlob. by rewrite Hc.
    + rewrite (getResourceBlob_miss ld name Hc). rewrite Hz.
      destruct (archiveBlob z (assetPath name)) as [blob|] eqn:Ha; cbn [snd].
      * split; [done|]. cbn [stringCache blobCache objectURLs].
        split; [done|]. split.
        -- intros n v. destruct (decide (n = name)) as [->|Hn].
           ++ rewrite lookup_insert_eq. intros [= <-]. exists blob.
              split; [done|]. apply lookup_insert_eq.
           ++ rewrite lookup_insert_ne by done. intros Hv.
              specialize (Hb n v Hv). destruct v as [url|]; [|done].
              destruct Hb as (blob' & Hb1 & Hb2). exists blob'. split; [done|].
              rewrite lookup_insert_ne; [done|]. intros <-. congruence.
        -- intros url Hurl. rewrite map_size_insert_None by done.
           destruct (decide (url = createObjectURL ld)) as [->|Hne].
           ++ exists (base.size (objectURLs ld)). split; [lia|done].
           ++ rewrite lookup_insert_ne in Hurl by done.
              destruct (Hreg url Hurl) as (k & Hk & ->). exists k. split; [lia|done].
      * split; [done|]. cbn [stringCache blobCache objectURLs].
        split; [done|]. split; [|done]. intros n v.
        destruct (decide (n = name)) as [->|Hn].
        -- rewrite lookup_insert_eq. by intros [= <-].
        -- rewrite lookup_insert_ne by done. apply Hb.
  - unfold clearCache. split; [done|]. cbn [stringCache blobCache objectURLs].
    split; [|split; [|done]]; intros ? ?; by rewrite lookup_empty.
Qed.

Lemma serveAll_cachesAgree (z : Zip) (ld : t) (rs : list Request) :
  cachesAgree z ld → cachesAgree z (serveAll ld rs).
Proof.
  revert ld. induction rs as [|r rs IH]; intros ld H; [done|].
  apply IH. by apply serve_cachesAgree.
Qed.

Lemma getResourceString_agrees (z : Zip) (rs : list Request) (name : string) :
  (getResourceString (serveAll (getResourceLoader z) rs) name).1 =
    archiveText z (assetPath name).
Proof.
  destruct (serveAll_cachesAgree z _ rs (cachesAgree_fresh z)) as (Hz & Hs & _).
  destruct (stringCache (serveAll (getResourceLoader z) rs) !! name) as [cached|] eqn:Hc.
  - unfold getResourceString. rewrite Hc. cbn [fst]. by apply Hs.
  - rewrite (getResourceString_miss _ name Hc). cbn [fst]. by rewrite Hz.
Qed.

(** X9: the text cache is transparent. Whatever was asked of a loader
    before, for this name or others, with [clearCache] in between or not,
    [getResourceString] answers what a loader fresh from the same archives
    answers. *)
Theorem getResourceString_cache_transparent (z : Zip) (rs : list Request)
    (name : string) :
  (getResourceString (serveAll (getResourceLoader z) rs) name).1 =
    (getResourceString (getResourceLoader z) name).1.
Proof.
  rewrite getResourceString_agrees.
  symmetry. apply (getResourceString_agrees z []).
Qed.

Lemma getResourceBlob_agrees (z : Zip) (rs : list Request) (name : string) :
  let r := getResourceBlob (serveAll (getResourceLoader z) rs) name in
  match archiveBlob z (assetPath name) with
  | Some blob => ∃ url, r.1 = Some url ∧ objectURLs r.2 !! url = Some blob
  | None => r.1 = None
  end.
Proof.
  cbn zeta.
  destruct (serveAll_cachesAgree z _ rs (cachesAgree_fresh z)) as (Hz & _ & Hb & _).
  set (ld := serveAll (getResourceLoader z) rs) in *.
  destruct (blobCache ld !! name) as [cached|] eqn:Hc.
  - specialize (Hb name cached Hc).
    unfold getResourceBlob. rewrite Hc. cbn [fst snd].
    destruct cached as [url|].
    + destruct Hb as (blob & -> & Hb2). by exists url.
    + by rewrite Hb.
  - rewrite (getResourceBlob_miss ld name Hc), Hz.
    destruct (archiveBlob z (assetPath name)) as [blob|]; cbn [fst snd]; [|done].
    eexists. split; [done|]. apply lookup_insert_eq.
Qed.

Lemma archiveBlob_firstEntry (z : Zip) (path : string) :
  archiveBlob z path = mkBlob <$> firstEntry z path.
Proof. destruct z as [z|zs]; [done|]. apply scanBlob_firstDefined. Qed.

(** X10: whatever was asked of a loader before, [getResourceBlob] answers
    with a URL registered for the entry of the first archive that defines
    the path, and with [undefined] exactly when no archive defines it. *)
Theorem getResourceBlob_first_entry (z : Zip) (rs : list Request) (name : string) :
  let r := getResourceBlob (serveAll (getResourceLoader z) rs) name in
  match firstEntry z (assetPath name) with
  | Some content => ∃ url, r.1 = Some url ∧ objectURLs r.2 !! url = Some (mkBlob content)
  | None => r.1 = None
  end.
Proof.
  cbn zeta. pose proof (getResourceBlob_agrees z rs name) as H. cbn zeta in H.
  rewrite archiveBlob_firstEntry in H.
  by destruct (firstEntry z (assetPath name)).
Qed.

Lemma getResourceBlob_memoized (ld : t) (name : string) :
  blobCache (getResourceBlob ld name).2 !! name = Some (getResourceBlob ld name).1.
Proof.
  destruct (blobCache ld !! name) as [cached|] eqn:Hc.
  - unfold getResourceBlob. by rewrite Hc.
  - rewrite (getResourceBlob_miss ld name Hc).
    destruct (archiveBlob (zip ld) (assetPath name)) as [blob|];
      cbn [fst snd blobCache]; apply lookup_insert_eq.
Qed.

(** X11: a second call for a name is served from the cache. It gives the
    answer of the first call, an absent resource included, and leaves the
    loader as the first call left it: no archive is read again and no new
    object URL is made. *)
Theorem second_call_served_from_cache (ld : t) (name : string) :
  getResourceString (getResourceString ld name).2 name = getResourceString ld name ∧
  getResourceBlob (getResourceBlob ld name).2 name = getResourceBlob ld name.
Proof.
  split.
  - destruct (stringCache ld !! name) as [cached|] eqn:Hc.
    + unfold getResourceString. rewrite Hc. cbn [snd]. by rewrite Hc.
    + rewrite (getResourceString_miss ld name Hc). cbn [snd].
      unfold getResourceString at 1. cbn [stringCache]. by rewrite lookup_insert_eq.
  - destruct (blobCache ld !! name) as [cached|] eqn:Hc.
    + unfold getResourceBlob. rewrite Hc. cbn [snd]. by rewrite Hc.
    + rewrite (getResourceBlob_miss ld name Hc).
      destruct (archiveBlob (zip ld) (assetPath name)) as [blob|]; cbn [snd];
        unfold getResourceBlob at 1; cbn [blobCache]; by rewrite lookup_insert_eq.
Qed.

Lemma serve_objectURLs (z : Zip) (ld : t) (r : Request) (url : string) (blob : Blob) :
  cachesAgree z ld →
  objectURLs ld !! url = Some blob → objectURLs (serve ld r) !! url = Some blob.
Proof.
  intros Hagree Hurl. pose proof (createObjectURL_fresh z ld Hagree) as Hfresh.
  destruct r as [name|name|]; cbn [serve]; [| |done].
  - unfold getResourceString. destruct (stringCache ld !! name); [done|].
    by destruct (zip ld).
  - destruct (blobCache ld !! name) as [cached|] eqn:Hc.
    + unfold getResourceBlob. by rewrite Hc.
    + rewrite (getResourceBlob_miss ld name Hc).
      destruct (archiveBlob _ _); cbn [snd objectURLs]; [|done].
      rewrite lookup_insert_ne; [done|]. intros Heq. congruence.
Qed.

(** X12: an object URL is for good. A URL a loader has handed out stays
    registered for the same blob through every later call: no call revokes
    it, [clearCache] included, and no later URL takes its place. *)
Theorem objectURL_never_revoked (z : Zip) (rs later : list Request)
    (url : string) (blob : Blob) :
  objectURLs (serveAll (getResourceLoader z) rs) !! url = Some blob →
  objectURLs (serveAll (serveAll (getResourceLoader z) rs) later) !! url = Some blob.
Proof.
  pose proof (serveAll_cachesAgree z _ rs (cachesAgree_fresh z)) as Hagree.
  revert Hagree. generalize (serveAll (getResourceLoader z) rs). intros ld.
  revert ld. induction later as [|r later IH]; intros ld Hagree Hurl; [done|].
  cbn [serveAll foldl]. apply IH.
  - by apply serve_cachesAgree.
  - by eapply serve_objectURLs.
Qed.

(** X13: [clearCache] forgets the URLs and keeps them registered. After it,
    the next [getResourceBlob] for a name that had a URL makes a second URL
    for the same blob, and the first is still registered: each
    [clearCache] costs one more object URL per resource asked for again. *)
Theorem clearCache_mints_second_url (z : Zip) (rs : list Request)
    (name url : string) :
  let ld := serveAll (getResourceLoader z) rs in
  (getResourceBlob ld name).1 = Some url →
  let again := getResourceBlob (clearCache (getResourceBlob ld name).2) name in
  ∃ url' blob,
    again.1 = Some url' ∧ url' ≠ url ∧
    objectURLs again.2 !! url = Some blob ∧
    objectURLs again.2 !! url' = Some blob.
Proof.
  cbn zeta. intros Hurl.
  pose proof (serveAll_cachesAgree z _ (rs ++ [GetBlob name]) (cachesAgree_fresh z))
    as Hagree.
  unfold serveAll in Hagree. rewrite foldl_app in Hagree. cbn [foldl serve] in Hagree.
  fold (serveAll (getResourceLoader z) rs) in Hagree.
  pose proof (getResourceBlob_memoized (serveAll (getResourceLoader z) rs) name)
    as Hcached.
  rewrite Hurl in Hcached.
  set (ld1 := (getResourceBlob (serveAll (getResourceLoader z) rs) name).2) in *.
  assert (objectURLs ld1 !! createObjectURL (clearCache ld1) = None) as Hfresh.
  { by apply (createObjectURL_fresh z ld1). }
  destruct Hagree as (Hz & _ & Hb & Hreg).
  destruct (Hb name (Some url) Hcached) as (blob & Hblob & Hregd).
  rewrite (getResourceBlob_miss (clearCache ld1) name) by apply lookup_empty.
  cbn [clearCache zip]. rewrite Hz, Hblob. cbn [fst snd objectURLs].
  exists (createObjectURL (clearCache ld1)), blob.
  split; [done|]. split; [intros Heq; congruence|].
  split; [|apply lookup_insert_eq].
  rewrite lookup_insert_ne; [done|]. intros Heq. congruence.
Qed.

Lemma scanString_find (zs : list JSZip) (path : string) (data : option string) :
  scanString zs path data =
    match List.find (λ zipFile, truthyString (fileString zipFile path)) zs with
    | Some zipFile => fileString zipFile path
    | None =>
        match last zs with
        | Some zipFile => fileString zipFile path
        | None => data
        end
    end.
Proof.
  revert data. induction zs as [|z zs IH]; intros data; cbn [scanString List.find];
    [done|].
  destruct (truthyString (fileString z path)); [done|].
  rewrite IH. destruct (List.find _ zs); [done|].
  destruct zs as [|z' zs]; [done|]. rewrite last_cons_cons, (last_cons z').
  by destruct (last zs).
Qed.

(** X14: what the text scan over several archives returns. It is the entry
    of the first archive that holds a non-empty text for the path. When no
    archive does, it is whatever the last archive of the list holds: the
    empty text if the last archive has an empty entry, [undefined] if it has
    none, even when an archive before it holds an empty entry for the
    path. *)
Theorem getResourceString_many (zs : list JSZip) (name : string) :
  (getResourceString (getResourceLoader (Many zs)) name).1 =
    match List.find (λ zipFile, truthyString (zipFile !! assetPath name)) zs with
    | Some zipFile => zipFile !! assetPath name
    | None => last zs ≫= (λ zipFile, zipFile !! assetPath name)
    end.
Proof.
  rewrite (getResourceString_miss (getResourceLoader (Many zs)) name)
    by apply lookup_empty.
  cbn [fst getResourceLoader zip archiveText]. rewrite scanString_find.
  unfold fileString. destruct (List.find _ zs); [done|]. by destruct (last zs).
Qed.

(** X19: an array of one archive is the one archive. Whatever was asked
    before, a loader made from a one-element array answers a text request as
    the loader made from that archive alone does, and has a blob for a name
    exactly when that loader has. *)
Theorem one_archive_array (z : JSZip) (rs rs' : list Request) (name : string) :
  (getResourceString (serveAll (getResourceLoader (Many [z])) rs) name).1 =
    (getResourceString (serveAll (getResourceLoader (Single z)) rs') name).1 ∧
  (is_Some (getResourceBlob (serveAll (getResourceLoader (Many [z])) rs) name).1 ↔
   is_Some (getResourceBlob (serveAll (getResourceLoader (Single z)) rs') name).1).
Proof.
  split.
  - rewrite !getResourceString_agrees. cbn [archiveText scanString].
    by destruct (truthyString _).
  - pose proof (getResourceBlob_agrees (Many [z]) rs name) as Hmany.
    pose proof (getResourceBlob_agrees (Single z) rs' name) as Hsingle.
    cbn zeta in Hmany, Hsingle. cbn [archiveBlob scanBlob] in Hmany, Hsingle.
    unfold fileBlob in *.
    destruct (z !! assetPath name) as [content|];
      cbn [fmap option_fmap option_map truthyBlob] in Hmany, Hsingle.
    + destruct Hmany as (url & -> & _). destruct Hsingle as (url' & -> & _).
      split; by eexists.
    + rewrite Hmany, Hsingle. done.
Qed.

(** X20: a loader over no archive at all. Every request is answered with
    [undefined], whatever was asked before, and no object URL is ever
    made. *)
Theorem no_archive_nothing (rs : list Request) (name : string) :
  let ld := serveAll (getResourceLoader (Many [])) rs in
  (getResourceString ld name).1 = None ∧
  (getResourceBlob ld name).1 = None ∧
  objectURLs (getResourceBlob ld name).2 = ∅.
Proof.
  cbn zeta. split; [by rewrite getResourceString_agrees|].
  pose proof (getResourceBlob_agrees (Many []) rs name) as Hnone. cbn zeta in Hnone.
  cbn [archiveBlob scanBlob] in Hnone. split; [done|].
  assert (∀ rs, objectURLs (serveAll (getResourceLoader (Many [])) rs) = ∅) as Hempty.
  { intros rs0. induction rs0 as [|r rs0 IH] using rev_ind; [done|].
    unfold serveAll in *. rewrite foldl_app. cbn [foldl].
    pose proof (serveAll_cachesAgree (Many []) _ rs0 (cachesAgree_fresh _)) as (Hz & _).
    unfold serveAll in Hz.
    destruct r as [n|n|]; cbn [serve]; [| |done].
    - unfold getResourceString. destruct (stringCache _ !! n); [done|].
      by destruct (zip _).
    - unfold getResourceBlob. destruct (blobCache _ !! n); [done|].
      by rewrite Hz. }
  specialize (Hempty (rs ++ [GetBlob name])).
  unfold serveAll in Hempty. rewrite foldl_app in Hempty. apply Hempty.
Qed.

(** *** The archives of a session *)

Section SessionArchives.

(** What fetching and opening an archive gives, as in [loadZip]. *)
Variable fetchZip : string → option JSZip.

Lemma sessionResourceLoader_Some (clientJarUrl : string)
    (resourcePacks : option (list string)) (ld : t) :
  sessionResourceLoader fetchZip clientJarUrl resourcePacks = Some ld →
  ∃ jar packs,
    fetchZip clientJarUrl = Some jar ∧
    mapM fetchZip (default [] resourcePacks) = Some packs ∧
    ld = getResourceLoader (Many (jar :: packs)).
Proof.
  unfold sessionResourceLoader, getResourceLoaderFromUrls, loadZip.
  cbn [mapM]. intros H.
  destruct (fetchZip clientJarUrl) as [jar|]; [|done]. cbn in H.
  destruct (mapM fetchZip (default [] resourcePacks)) as [packs|]; [|done].
  injection H as <-. by exists jar, packs.
Qed.

(** X15: the client jar comes first. In the loader of a session, a path
    the client jar defines is answered from the client jar, whatever the
    resource packs hold for it and whatever was asked before: a resource
    pack supplies only what the client jar lacks (for text, also what the
    client jar holds as an empty file). *)
Theorem client_jar_takes_precedence (clientJarUrl : string)
    (resourcePacks : option (list string)) (ld : t) (jar : JSZip)
    (rs : list Request) (name content : string) :
  sessionResourceLoader fetchZip clientJarUrl resourcePacks = Some ld →
  fetchZip clientJarUrl = Some jar →
  jar !! assetPath name = Some content →
  (∃ url,
     (getResourceBlob (serveAll ld rs) name).1 = Some url ∧
     objectURLs (getResourceBlob (serveAll ld rs) name).2 !! url
       = Some (mkBlob content)) ∧
  (content ≠ "" → (getResourceString (serveAll ld rs) name).1 = Some content).
Proof.
  intros Hld Hjar Hcontent.
  destruct (sessionResourceLoader_Some _ _ _ Hld) as (jar' & packs & Hjar' & _ & ->).
  assert (jar' = jar) as -> by congruence. split.
  - pose proof (getResourceBlob_agrees (Many (jar :: packs)) rs name) as H.
    cbn zeta in H. rewrite archiveBlob_firstEntry in H.
    cbn [firstEntry firstDefined] in H. by rewrite Hcontent in H.
  - intros Hne. rewrite getResourceString_agrees. cbn [archiveText scanString].
    unfold fileString. rewrite Hcontent. cbn [truthyString].
    destruct (String.eqb content "") eqn:He; [|done].
    by apply String.eqb_eq in He.
Qed.

(** X16: one archive that fails to load fails the loader. The loader of a
    session exists exactly when the client jar and every resource pack
    could be fetched and opened; an absent list of resource packs counts as
    an empty one. *)
Theorem sessionResourceLoader_all_or_nothing (clientJarUrl : string)
    (resourcePacks : option (list string)) :
  is_Some (sessionResourceLoader fetchZip clientJarUrl resourcePacks) ↔
  is_Some (fetchZip clientJarUrl) ∧
  ∀ url, url ∈ default [] resourcePacks → is_Some (fetchZip url).
Proof.
  unfold sessionResourceLoader, getResourceLoaderFromUrls, loadZip.
  rewrite !fmap_is_Some, mapM_is_Some, Forall_cons, Forall_forall. done.
Qed.

End SessionArchives.

End LoaderHistory.

(** ** The scene's colour and camera: proofs *)

Lemma string_length_app (a b : string) :
  String.length (a +:+ b) = (String.length a + String.length b)%nat.
Proof.
  induction a as [|c a IH]; [by rewrite string_app_nil|].
  rewrite string_app_cons. cbn [String.length]. by rewrite IH.
Qed.

Lemma hexDigits_length (fuel : nat) (n : Z) :
  0 ≤ n → Z.log2 n / 4 < Z.of_nat fuel →
  String.length (hexDigits fuel n) = S (Z.to_nat (Z.log2 n / 4)).
Proof.
  revert n. induction fuel as [|fuel IH]; intros n Hn Hfuel.
  - pose proof (Z.log2_nonneg n). assert (0 ≤ Z.log2 n / 4) by (apply Z.div_pos; lia). lia.
  - cbn [hexDigits]. destruct (n <? 16) eqn:Hlt.
    + apply Z.ltb_lt in Hlt. cbn [String.length].
      assert (Z.log2 n < 4) as Hlog.
      { destruct (decide (n = 0)) as [->|Hn0]; [done|].
        apply Z.log2_lt_pow2; lia. }
      pose proof (Z.log2_nonneg n). rewrite Z.div_small by lia. done.
    + apply Z.ltb_ge in Hlt. rewrite string_length_app. cbn [String.length].
      assert (Z.log2 (n / 16) = Z.log2 n - 4) as Hlog.
      { change 16 with (2 ^ 4). rewrite <- Z.shiftr_div_pow2 by lia.
        rewrite Z.log2_shiftr by lia.
        assert (4 ≤ Z.log2 n) by (apply Z.log2_le_pow2; lia). lia. }
      assert (4 ≤ Z.log2 n) as H4 by (apply Z.log2_le_pow2; lia).
      assert ((Z.log2 n - 4) / 4 = Z.log2 n / 4 - 1) as Hdiv.
      { replace (Z.log2 n - 4) with (Z.log2 n + (-1) * 4) by lia.
        rewrite Z.div_add by lia. lia. }
      rewrite IH.
      * rewrite Hlog, Hdiv.
        assert (1 ≤ Z.log2 n / 4) by (apply Z.div_le_lower_bound; lia). lia.
      * apply Z.div_pos; lia.
      * rewrite Hlog, Hdiv. lia.
Qed.

(** X17: the hex string [setSceneColor] builds for a numeric colour has
    the nine characters of [#RRGGBBAA] exactly when the colour is at least
    0x100000: [toString(16)] drops leading zeros, so a colour whose red
    component is below 0x10 gives a shorter string. *)
Theorem setSceneColor_hex_length (n : Z) :
  0 ≤ n →
  ∃ hex, setSceneColor (ColorNumber n) = FromHexString hex ∧
    (String.length hex = 9%nat ↔ 0x100000 ≤ n ≤ 0xffffff).
Proof.
  intros Hn. eexists. split; [done|].
  cbn [colorToString16]. unfold toString16.
  rewrite (proj2 (Z.ltb_ge n 0)) by done.
  rewrite string_length_app, string_length_app, hexDigits_length; [|done|].
  - cbn [String.length]. pose proof (Z.log2_nonneg n) as Hl.
    split.
    + intros H. assert (Z.log2 n / 4 = 5) as H5.
      { assert (0 ≤ Z.log2 n / 4) by (apply Z.div_pos; lia). lia. }
      assert (20 ≤ Z.log2 n < 24) as [Hlo Hhi].
      { split.
        - apply Z.nlt_ge. intros Hc.
          assert (Z.log2 n / 4 < 5) by (apply Z.div_lt_upper_bound; lia). lia.
        - apply Z.nle_gt. intros Hc.
          assert (6 ≤ Z.log2 n / 4) by (apply Z.div_le_lower_bound; lia). lia. }
      assert (0 < n) as Hpos.
      { destruct (decide (n = 0)) as [->|]; [cbn in Hlo; lia|lia]. }
      apply Z.log2_le_pow2 in Hlo; [|done]. apply Z.log2_lt_pow2 in Hhi; [|done].
      change (2 ^ 20) with 1048576 in Hlo. change (2 ^ 24) with 16777216 in Hhi. lia.
    + intros [Hlo Hhi].
      assert (20 ≤ Z.log2 n) as H1 by (apply Z.log2_le_pow2; lia).
      assert (Z.log2 n < 24) as H2 by (apply Z.log2_lt_pow2; lia).
      assert (Z.log2 n / 4 = 5) as ->; [|done].
      assert (5 ≤ Z.log2 n / 4) by (apply Z.div_le_lower_bound; lia).
      assert (Z.log2 n / 4 < 6) by (apply Z.div_lt_upper_bound; lia). lia.
  - pose proof (Z.log2_nonneg n) as Hl.
    assert (Z.log2 n / 4 ≤ Z.log2 n).
    { apply Z.div_le_upper_bound; lia. }
    lia.
Qed.

Lemma centred_coordinate (x dimension big : Z) :
  0 ≤ x < dimension → dimension ≤ big →
  let c := (0 + (centreOffset dimension + inject_Z x))%Q in
  (c * c <= ((inject_Z big - 1) / 2) * ((inject_Z big - 1) / 2))%Q.
Proof.
  intros [Hx0 Hx1] Hbig. cbn zeta. unfold centreOffset.
  assert (inject_Z 0 <= inject_Z x)%Q as H0 by (by rewrite <- Zle_Qle).
  assert (inject_Z (x + 1) <= inject_Z dimension)%Q as H1 by (rewrite <- Zle_Qle; lia).
  assert (inject_Z dimension <= inject_Z big)%Q as H2 by (by rewrite <- Zle_Qle).
  rewrite inject_Z_plus in H1.
  change (inject_Z 0) with 0%Q in H0. change (inject_Z 1) with 1%Q in H1.
  set (a := inject_Z x) in *. set (d := inject_Z dimension) in *.
  set (m := inject_Z big) in *. clearbody a d m.
  unfold Qdiv. change (/ 2)%Q with (1 # 2)%Q.
  assert (- ((m - 1) * (1 # 2)) <= 0 + (- d * (1 # 2) + (1 # 2) + a))%Q as Hlo by lra.
  assert (0 + (- d * (1 # 2) + (1 # 2) + a) <= (m - 1) * (1 # 2))%Q as Hhi by lra.
  nra.
Qed.

(** X18: the camera looks at the whole structure from outside. The centre
    of every voxel of the grid, placed as the assembly places it, lies
    strictly inside the sphere around the camera's target on which the
    camera of [getCameraSetup] moves (radius three times the camera offset
    of line 263). *)
Theorem voxels_inside_camera_sphere (s : Schematic.t) (pos : BlockVector3) :
  contains s pos = true →
  let camera := getCameraSetup (cameraOffset s) in
  let centre :=
    position
      (placeMesh (centreOffset (Schematic.width s)) (centreOffset (Schematic.height s))
         (centreOffset (Schematic.length s)) pos
         (mkMesh "" true (Vector3.mk 0 0 0) false)) in
  let dx := (Vector3.x centre - Vector3.x (target camera))%Q in
  let dy := (Vector3.y centre - Vector3.y (target camera))%Q in
  let dz := (Vector3.z centre - Vector3.z (target camera))%Q in
  (dx * dx + dy * dy + dz * dz < radius camera * radius camera)%Q.
Proof.
  destruct pos as [[x y] z]. unfold contains. intros Hc.
  repeat (apply andb_prop in Hc as [Hc ?]).
  repeat match goal with
         | H : (_ <=? _) = true |- _ => apply Z.leb_le in H
         | H : (_ <? _) = true |- _ => apply Z.ltb_lt in H
         end.
  cbn zeta. cbn [getCameraSetup target radius placeMesh position Vector3.x Vector3.y
    Vector3.z]. unfold cameraOffset.
  set (big := Z.max (Z.max (Schematic.width s) (Schematic.length s)) (Schematic.height s)).
  pose proof (centred_coordinate x (Schematic.width s) big) as Hx.
  pose proof (centred_coordinate y (Schematic.height s) big) as Hy.
  pose proof (centred_coordinate z (Schematic.length s) big) as Hz.
  cbn zeta in Hx, Hy, Hz.
  specialize (Hx ltac:(lia) ltac:(lia)). specialize (Hy ltac:(lia) ltac:(lia)).
  specialize (Hz ltac:(lia) ltac:(lia)).
  assert (inject_Z 1 <= inject_Z big)%Q as Hbig by (rewrite <- Zle_Qle; lia).
  change (inject_Z 1) with 1%Q in Hbig.
  set (m := inject_Z big) in *.
  set (cx := (0 + (centreOffset (Schematic.width s) + inject_Z x))%Q) in *.
  set (cy := (0 + (centreOffset (Schematic.height s) + inject_Z y))%Q) in *.
  set (cz := (0 + (centreOffset (Schematic.length s) + inject_Z z))%Q) in *.
  clearbody m cx cy cz. unfold Qdiv in *. change (/ 2)%Q with (1 # 2)%Q in *. nra.
Qed.

(** ** A small world to run the renderer in *)

Module Demo.

Definition INVISIBLE_BLOCKS : gset string := {[ "minecraft:air" ]}.
Definition NON_OCCLUDING_BLOCKS : gset string :=
  {[ "minecraft:air"; "minecraft:glass" ]}.

Definition stone : Block := mkBlock "minecraft:stone" [].
(** A block type with a state definition and no model. *)
Definition barrier : Block := mkBlock "minecraft:barrier" [].

Definition stairsFacingFirst : Block :=
  mkBlock "minecraft:oak_stairs" [("facing", "north"); ("half", "top")].
Definition stairsHalfFirst : Block :=
  mkBlock "minecraft:oak_stairs" [("half", "top"); ("facing", "north")].

(** Width 2, height 1, length 1, stone at (0,0,0) and (1,0,0). *)
Definition pair : Schematic.t :=
  Schematic.mk 2 1 1 [stone] {[ (0, 0, 0) := stone; (1, 0, 0) := stone ]}.
Definition single : Schematic.t :=
  Schematic.mk 1 1 1 [stone] {[ (0, 0, 0) := stone ]}.
Definition barriers : Schematic.t :=
  Schematic.mk 1 1 1 [barrier] {[ (0, 0, 0) := barrier ]}.
Definition glass : Block := mkBlock "minecraft:glass" [].
Definition pane : Schematic.t :=
  Schematic.mk 1 1 1 [glass] {[ (0, 0, 0) := glass ]}.

Definition loadSchematic (schematic : string) : option Schematic.t :=
  if decide (schematic = "pair") then Some pair
  else if decide (schematic = "single") then Some single
  else if decide (schematic = "barriers") then Some barriers
  else if decide (schematic = "pane") then Some pane
  else None.

Definition loadBlockStateDefinition (type : string) : string :=
  "blockstates/" +:+ type.

Definition getBlockModelData (block : Block) (blockState : string)
    : BlockModelData (ModelHolder := string) :=
  mkBlockModelData
    (if decide (type block = "minecraft:barrier") then [] else [type block]).

Definition getModelOption (modelData : BlockModelData (ModelHolder := string)) : string :=
  match models modelData with
  | [] => ""
  | holder :: _ => holder
  end.

(** One instanced mesh per voxel, modelled at the origin; the loader's
    cache is the list of models it built, and it leaves the scene alone. *)
Definition getModel (modelOption : string) (block : Block) (sc : Scene)
    (cache : list string) : list (option Mesh) * Scene * list string :=
  ([Some (mkMesh modelOption true (Vector3.mk 0 0 0) false)], sc, modelOption :: cache).

(** A model loader that hands out plain meshes. *)
Definition getModelPlain (modelOption : string) (block : Block) (sc : Scene)
    (cache : list string) : list (option Mesh) * Scene * list string :=
  ([Some (mkMesh modelOption false (Vector3.mk 0 0 0) false)], sc, modelOption :: cache).

(** A model loader that builds the model and hands out no mesh for it. *)
Definition getModelNull (modelOption : string) (block : Block) (sc : Scene)
    (cache : list string) : list (option Mesh) * Scene * list string :=
  ([None], sc, modelOption :: cache).

Definition emptyModelCache : list string := [].

(** [engine.dispose()] as Babylon has it: every mesh of the scene is
    disposed with the engine. *)
Definition engineDisposeClears (sc : Scene) : Scene :=
  mkScene [] (disposedMeshes sc ++ meshes sc) (blockMaterialDirtyMechanism sc)
    (materialsFrozen sc) (renderedFrames sc).
(** An engine whose disposal leaves the scene alone, for runs in which
    [destroy] is not called. *)
Definition engineDisposeKeeps (sc : Scene) : Scene := sc.

Definition addArrowToScene (sc : Scene) (cameraOffset : Q) : Scene := sc.
Definition addBarsToScene (sc : Scene) (cameraOffset : Q) (w h l : Z) : Scene := sc.

Definition options : SchematicRenderOptions := mkOptions None false false false.

Definition firstLoad (schematic : string) : option Session :=
  renderSchematic INVISIBLE_BLOCKS NON_OCCLUDING_BLOCKS loadSchematic
    loadBlockStateDefinition getBlockModelData getModelOption getModel
    emptyModelCache addArrowToScene addBarsToScene schematic options.

Definition swap : Session → string → Session * Outcome :=
  swapSchematic INVISIBLE_BLOCKS NON_OCCLUDING_BLOCKS loadSchematic
    loadBlockStateDefinition getBlockModelData getModelOption getModel
    emptyModelCache.

Definition runEvents (engineDispose : Scene → Scene) : Async → list Event → Async :=
  run INVISIBLE_BLOCKS NON_OCCLUDING_BLOCKS loadSchematic
    loadBlockStateDefinition getBlockModelData getModelOption getModel
    emptyModelCache engineDispose.

Definition firstLoadPlain (schematic : string) : option Session :=
  renderSchematic INVISIBLE_BLOCKS NON_OCCLUDING_BLOCKS loadSchematic
    loadBlockStateDefinition getBlockModelData getModelOption getModelPlain
    emptyModelCache addArrowToScene addBarsToScene schematic options.

Definition swapPlain : Session → string → Session * Outcome :=
  swapSchematic INVISIBLE_BLOCKS NON_OCCLUDING_BLOCKS loadSchematic
    loadBlockStateDefinition getBlockModelData getModelOption getModelPlain
    emptyModelCache.

Definition blank : Session (ModelHolder := string) (ModelCache := list string) :=
  mkSession ∅ [] emptyScene false false None false [].

(** The session after the first load of [pair], and of [barriers]. *)
Definition pairSession := default blank (firstLoad "pair").
Definition barriersSession := default blank (firstLoad "barriers").

End Demo.

(** ** Instances and counterexamples in the small world *)

Lemma firstLoad_pair : Demo.firstLoad "pair" = Some Demo.pairSession.
Proof. vm_compute. reflexivity. Qed.

Lemma firstLoad_barriers : Demo.firstLoad "barriers" = Some Demo.barriersSession.
Proof. vm_compute. reflexivity. Qed.





(** C1, counterexample: two stairs blocks of one type whose property
    objects bind the same names to the same values, written in a different
    order, get different keys. *)
Lemma hashBlockForMap_order_dependent :
  type Demo.stairsFacingFirst = type Demo.stairsHalfFirst ∧
  (∀ k, propertyValue (properties Demo.stairsFacingFirst) k =
        propertyValue (properties Demo.stairsHalfFirst) k) ∧
  hashBlockForMap Demo.stairsFacingFirst ≠ hashBlockForMap Demo.stairsHalfFirst.
Proof.
  split; [reflexivity|]. split.
  - intros k. cbn. repeat case_decide; congruence.
  - vm_compute. discriminate.
Qed.



(** The premises of C2 at work: with a model loader that hands out plain
    meshes, the swap from [pair] to [single] completes and leaves the two
    fragments of [pair] in the scene next to the one of [single]. *)
Lemma swapSchematic_keeps_plain_meshes :
  let before := default Demo.blank (Demo.firstLoadPlain "pair") in
  let after := Demo.swapPlain before "single" in
  let stones (sc : Scene) :=
    List.filter (λ m, String.eqb (name m) "minecraft:stone") (meshes sc) in
  ¬ handsOutInstances Demo.getModelPlain ∧
  after.2 = Completed ∧
  length (stones (scene before)) = 2%nat ∧
  length (stones (scene after.1)) = 3%nat ∧
  disposedMeshes (scene after.1) = [groundMesh (gridHeight 1)].
Proof.
  cbn zeta. split.
  - intros H.
    assert (instanced (mkMesh "x" false (Vector3.mk 0 0 0) false) = true) as Hi.
    { apply (H "x" Demo.stone emptyScene []). left. }
    discriminate Hi.
  - repeat split; vm_compute; reflexivity.
Qed.

(** C3, counterexample: [barrier] resolves to no model. The first load of
    a structure made of it resolves it and records nothing; the swap to the
    same structure resolves it a second time. *)
Lemma empty_model_type_resolved_again :
  models (resolveBlock Demo.loadBlockStateDefinition Demo.getBlockModelData
            Demo.barrier) = [] ∧
  resolutions Demo.barriersSession = [Demo.barrier] ∧
  blockModelLookup Demo.barriersSession !! hashBlockForMap Demo.barrier = None ∧
  (Demo.swap Demo.barriersSession "barriers").2 = Completed ∧
  resolutions (Demo.swap Demo.barriersSession "barriers").1 =
    [Demo.barrier; Demo.barrier] ∧
  blockModelLookup (Demo.swap Demo.barriersSession "barriers").1
    !! hashBlockForMap Demo.barrier = None.
Proof. repeat split; vm_compute; reflexivity. Qed.


(** The voxel of the instance has an exposing face: it is handed to the
    model loader, the one mesh of the loader enters the empty scene at
    x = -1/2, and the face loop stops before it has fetched all six
    neighbours. *)
Lemma pair_origin_exposed :
  let lookup : gmap string BlockModelData :=
    {[ hashBlockForMap Demo.stone := mkBlockModelData ["minecraft:stone"] ]} in
  voxelModel Demo.INVISIBLE_BLOCKS Demo.NON_OCCLUDING_BLOCKS Demo.pair lookup (0, 0, 0)
    = Some (Demo.stone, mkBlockModelData ["minecraft:stone"]) ∧
  match
    meshes
      (voxelStep Demo.INVISIBLE_BLOCKS Demo.NON_OCCLUDING_BLOCKS Demo.getModelOption
         Demo.getModel Demo.pair lookup (centreOffset 2) (centreOffset 1) (centreOffset 1)
         (emptyScene, []) (0, 0, 0)).1
  with
  | [mesh] =>
      name mesh = "minecraft:stone" ∧ instanced mesh = true ∧
      worldMatrixFrozen mesh = true ∧ (Vector3.x (position mesh) == - (1 # 2))%Q
  | _ => False
  end ∧
  (length (faceLoop Demo.NON_OCCLUDING_BLOCKS Demo.pair (0, 0, 0)%Z POSSIBLE_FACES).2
     < length POSSIBLE_FACES)%nat.
Proof.
  cbn zeta. split; [vm_compute; reflexivity|]. split; [|vm_compute; lia].
  vm_compute. repeat split; reflexivity.
Qed.

(** What C4 says when the model loader hands out null alone (line 182 lets
    it): the voxel of the instance is handed to the loader, and the scene
    is as the loader left it. *)
Lemma pair_origin_null_meshes :
  let lookup : gmap string BlockModelData :=
    {[ hashBlockForMap Demo.stone := mkBlockModelData ["minecraft:stone"] ]} in
  voxelModel Demo.INVISIBLE_BLOCKS Demo.NON_OCCLUDING_BLOCKS Demo.pair lookup (0, 0, 0)
    = Some (Demo.stone, mkBlockModelData ["minecraft:stone"]) ∧
  voxelStep Demo.INVISIBLE_BLOCKS Demo.NON_OCCLUDING_BLOCKS Demo.getModelOption
    Demo.getModelNull Demo.pair lookup (centreOffset 2) (centreOffset 1) (centreOffset 1)
    (emptyScene, []) (0, 0, 0)
    = (emptyScene, ["minecraft:stone"]).
Proof. cbn zeta. split; vm_compute; reflexivity. Qed.

(** C8, instance: the session showing [pair] is destroyed, with an engine
    whose disposal empties the scene; a swap to [single] is called, and a
    frame asked for. *)
Lemma swap_after_destroy_faults_witness :
  let start := mkAsync Demo.pairSession [] in
  let es := [Call "single"; Frame] in
  let a' :=
    Demo.runEvents Demo.engineDisposeClears
      (Demo.runEvents Demo.engineDisposeClears start [Destroy]) es in
  let destroyed := session (Demo.runEvents Demo.engineDisposeClears start [Destroy]) in
  ((∀ sc, meshes (Demo.engineDisposeClears sc) = []) ∧
   Demo.loadSchematic "single" = Some Demo.single) ∧
  (hasDestroyed (session a') = true ∧
   Demo.runEvents Demo.engineDisposeClears a' [Frame] = a' ∧
   ∀ n : nat, Nat.iter n render (session a') = session a') ∧
  (hasDestroyed destroyed = true ∧
   renderLoop destroyed = false ∧
   meshes (scene destroyed) = []) ∧
  ((Demo.swap destroyed "single").2 = Faulted ∧
   modelCache (Demo.swap destroyed "single").1 = Demo.emptyModelCache ∧
   Demo.runEvents Demo.engineDisposeClears start [Destroy; Call "single"] =
     mkAsync (Demo.swap destroyed "single").1 []).
Proof.
  cbn zeta. split; [split; [intros sc; reflexivity|reflexivity]|].
  exact (swap_after_destroy_faults Demo.INVISIBLE_BLOCKS Demo.NON_OCCLUDING_BLOCKS
           Demo.loadSchematic Demo.loadBlockStateDefinition Demo.getBlockModelData
           Demo.getModelOption Demo.getModel Demo.emptyModelCache
           Demo.engineDisposeClears (mkAsync Demo.pairSession [])
           [Call "single"; Frame] "single" Demo.single
           (λ sc, eq_refl) eq_refl).
Defined.

(** The swap of the instance, step by step: before [destroy] the session
    shows the two fragments of [pair] and keeps the models built for them;
    [destroy] leaves no mesh in the scene; the swap called then empties the
    model loader's cache and faults, where the same swap called on the
    session before [destroy] completes. *)
Lemma swap_after_destroy_not_noop :
  let destroyed :=
    session
      (Demo.runEvents Demo.engineDisposeClears (mkAsync Demo.pairSession []) [Destroy]) in
  length (activeMeshes (scene Demo.pairSession)) = 2%nat ∧
  (Demo.swap Demo.pairSession "single").2 = Completed ∧
  hasDestroyed destroyed = true ∧
  meshes (scene destroyed) = [] ∧
  List.find (λ mesh, String.eqb (name mesh) "ground") (meshes (scene destroyed)) = None ∧
  (Demo.swap destroyed "single").2 = Faulted ∧
  modelCache destroyed ≠ modelCache (Demo.swap destroyed "single").1 ∧
  (Demo.swap destroyed "single").1 ≠ destroyed.
Proof.
  cbn zeta. repeat split; try (vm_compute; reflexivity).
  - vm_compute. intros H. discriminate H.
  - intros H. apply (f_equal modelCache) in H. vm_compute in H. discriminate H.
Qed.

(** C9, counterexample: a second swap to [pane] is called while the first
    is in flight. Both wait for the state definition of glass at once; both
    resolve it, and when both have run to their end the scene shows two
    fragments for the one voxel of [pane]. *)
Lemma overlapping_swaps_in_flight :
  let overlapped :=
    Demo.runEvents Demo.engineDisposeKeeps (mkAsync Demo.pairSession [])
      [Call "pane"; Call "pane"] in
  let finished :=
    Demo.runEvents Demo.engineDisposeKeeps overlapped
      [Resume 0; Resume 1; Resume 0; Resume 1; Resume 0; Resume 1; Resume 0; Resume 0] in
  inflight overlapped =
    [Resolving Demo.pane Demo.glass []; Resolving Demo.pane Demo.glass []] ∧
  ¬ (length (inflight overlapped) ≤ 1)%nat ∧
  inflight finished = [] ∧
  resolutions (session finished) = [Demo.stone; Demo.glass; Demo.glass] ∧
  length (activeMeshes (scene (session finished))) = 2%nat ∧
  (Demo.swap Demo.pairSession "pane").2 = Completed ∧
  length (activeMeshes (scene (Demo.swap Demo.pairSession "pane").1)) = 1%nat.
Proof.
  cbn zeta. repeat split; try (vm_compute; reflexivity).
  vm_compute. lia.
Qed.

(** ** More instances in the small world *)

Module Tour.

(** A session that is not to render on its own. *)
Definition quiet : SchematicRenderOptions := mkOptions None false false true.

Definition firstLoadQuiet (schematic : string) : option Session :=
  renderSchematic Demo.INVISIBLE_BLOCKS Demo.NON_OCCLUDING_BLOCKS Demo.loadSchematic
    Demo.loadBlockStateDefinition Demo.getBlockModelData Demo.getModelOption
    Demo.getModel Demo.emptyModelCache Demo.addArrowToScene Demo.addBarsToScene
    schematic quiet.

Definition quietSession := default Demo.blank (firstLoadQuiet "pair").

(** A client jar and a resource pack that both hold the stone texture. *)
Definition jar : ResourceLoader.JSZip :=
  {[ "assets/minecraft/textures/stone.png" := "jar-stone" ]}.
Definition pack : ResourceLoader.JSZip :=
  {[ "assets/minecraft/textures/stone.png" := "pack-stone" ]}.

Definition fetchZip (url : string) : option ResourceLoader.JSZip :=
  if decide (url = "client.jar") then Some jar
  else if decide (url = "pack.zip") then Some pack
  else None.

Definition archives : ResourceLoader.Zip := ResourceLoader.Many [jar; pack].

End Tour.

(** X2, instance: the session showing [pair] is swapped to an input that
    does not parse. *)
Lemma swapSchematic_unparseable_witness :
  let after := Demo.swap Demo.pairSession "garbage" in
  Demo.loadSchematic "garbage" = None ∧
  after.2 = Faulted ∧
  activeMeshes (scene after.1) = [] ∧
  plainMeshes (scene after.1) = plainMeshes (scene Demo.pairSession) ∧
  disposedMeshes (scene after.1) =
    disposedMeshes (scene Demo.pairSession) ++ activeMeshes (scene Demo.pairSession) ∧
  modelCache after.1 = Demo.emptyModelCache ∧
  blockModelLookup after.1 = blockModelLookup Demo.pairSession ∧
  renderLoop after.1 = renderLoop Demo.pairSession.
Proof.
  cbn zeta. split; [reflexivity|].
  apply (swapSchematic_unparseable Demo.INVISIBLE_BLOCKS Demo.NON_OCCLUDING_BLOCKS
           Demo.loadSchematic Demo.loadBlockStateDefinition Demo.getBlockModelData
           Demo.getModelOption Demo.getModel Demo.emptyModelCache
           Demo.pairSession "garbage").
  reflexivity.
Defined.

(** X6, instance: [barriers], whose one block type has no entry in the
    lookup its own load leaves. *)
Lemma computeSchematicMesh_nothing_to_draw_witness :
  computeSchematicMesh Demo.INVISIBLE_BLOCKS Demo.NON_OCCLUDING_BLOCKS
    Demo.getModelOption Demo.getModel Demo.barriers
    (blockModelLookup Demo.barriersSession) (emptyScene, Demo.emptyModelCache) 1 1 1 =
  (setBlockMaterialDirtyMechanism emptyScene false, Demo.emptyModelCache).
Proof.
  apply (computeSchematicMesh_nothing_to_draw Demo.INVISIBLE_BLOCKS
           Demo.NON_OCCLUDING_BLOCKS Demo.getModelOption Demo.getModel Demo.barriers
           (blockModelLookup Demo.barriersSession) emptyScene Demo.emptyModelCache
           1 1 1).
  intros pos block Hpos Hblock. right. left.
  vm_compute in Hpos. apply list_elem_of_singleton in Hpos as ->.
  vm_compute in Hblock. injection Hblock as <-. vm_compute. reflexivity.
Defined.

(** X7, instance: [pair] loaded with [disableAutoRender], then swapped to
    [single]. *)
Lemma swap_starts_render_loop_witness :
  Tour.firstLoadQuiet "pair" = Some Tour.quietSession ∧
  disableAutoRender Tour.quiet = true ∧
  renderLoop Tour.quietSession = false ∧
  renderLoop (Demo.swap Tour.quietSession "single").1 =
    match (Demo.swap Tour.quietSession "single").2 with
    | Completed => true
    | Faulted => false
    end.
Proof.
  split; [vm_compute; reflexivity|]. split; [reflexivity|].
  apply (swap_starts_render_loop Demo.INVISIBLE_BLOCKS Demo.NON_OCCLUDING_BLOCKS
           Demo.loadSchematic Demo.loadBlockStateDefinition Demo.getBlockModelData
           Demo.getModelOption Demo.getModel Demo.emptyModelCache
           Demo.addArrowToScene Demo.addBarsToScene "pair" "single" Tour.quiet
           Tour.quietSession).
  - vm_compute. reflexivity.
  - reflexivity.
Defined.

(** X12, instance: the URL of the stone texture, after [clearCache] and a
    second request for the texture. *)
Lemma objectURL_never_revoked_witness :
  let ld :=
    serveAll (ResourceLoader.getResourceLoader Tour.archives)
      [GetBlob "textures/stone.png"] in
  ResourceLoader.objectURLs ld !! "blob:0" = Some (ResourceLoader.mkBlob "jar-stone") ∧
  ResourceLoader.objectURLs
    (serveAll ld [ClearCache; GetBlob "textures/stone.png"]) !! "blob:0"
    = Some (ResourceLoader.mkBlob "jar-stone").
Proof.
  cbn zeta. split; [vm_compute; reflexivity|].
  apply (objectURL_never_revoked Tour.archives [GetBlob "textures/stone.png"]
           [ClearCache; GetBlob "textures/stone.png"] "blob:0"
           (ResourceLoader.mkBlob "jar-stone")).
  vm_compute. reflexivity.
Defined.

(** X13, instance: the stone texture is asked for, the cache cleared, and
    the texture asked for again. *)
Lemma clearCache_mints_second_url_witness :
  let ld := serveAll (ResourceLoader.getResourceLoader Tour.archives) [] in
  let again :=
    ResourceLoader.getResourceBlob
      (ResourceLoader.clearCache
         (ResourceLoader.getResourceBlob ld "textures/stone.png").2)
      "textures/stone.png" in
  (ResourceLoader.getResourceBlob ld "textures/stone.png").1 = Some "blob:0" ∧
  ∃ url' blob,
    again.1 = Some url' ∧ url' ≠ "blob:0" ∧
    ResourceLoader.objectURLs again.2 !! "blob:0" = Some blob ∧
    ResourceLoader.objectURLs again.2 !! url' = Some blob.
Proof.
  cbn zeta. split; [vm_compute; reflexivity|].
  apply (clearCache_mints_second_url Tour.archives [] "textures/stone.png" "blob:0").
  vm_compute. reflexivity.
Defined.

(** X15, instance: client jar and resource pack both hold the stone
    texture. *)
Lemma client_jar_takes_precedence_witness :
  let ld := ResourceLoader.getResourceLoader Tour.archives in
  let name := "textures/stone.png" in
  sessionResourceLoader Tour.fetchZip "client.jar" (Some ["pack.zip"]) = Some ld ∧
  Tour.fetchZip "client.jar" = Some Tour.jar ∧
  Tour.jar !! ResourceLoader.assetPath name = Some "jar-stone" ∧
  Tour.pack !! ResourceLoader.assetPath name = Some "pack-stone" ∧
  (∃ url,
     (ResourceLoader.getResourceBlob (serveAll ld [ClearCache]) name).1 = Some url ∧
     ResourceLoader.objectURLs
       (ResourceLoader.getResourceBlob (serveAll ld [ClearCache]) name).2 !! url
       = Some (ResourceLoader.mkBlob "jar-stone")) ∧
  ("jar-stone" ≠ "" →
   (ResourceLoader.getResourceString (serveAll ld [ClearCache]) name).1
     = Some "jar-stone").
Proof.
  cbn zeta. split; [vm_compute; reflexivity|]. split; [reflexivity|].
  split; [vm_compute; reflexivity|]. split; [vm_compute; reflexivity|].
  apply (client_jar_takes_precedence Tour.fetchZip "client.jar" (Some ["pack.zip"])
           (ResourceLoader.getResourceLoader Tour.archives) Tour.jar [ClearCache]
           "textures/stone.png" "jar-stone").
  - vm_compute. reflexivity.
  - reflexivity.
  - vm_compute. reflexivity.
Defined.

(** X17, instance: white, the default background colour. *)
Lemma setSceneColor_hex_length_witness :
  0 ≤ 0xffffff ∧
  ∃ hex, setSceneColor (ColorNumber 0xffffff) = FromHexString hex ∧
    (String.length hex = 9%nat ↔ 0x100000 ≤ 0xffffff ≤ 0xffffff).
Proof.
  split; [lia|]. apply (setSceneColor_hex_length 0xffffff). lia.
Defined.

(** X18, instance: the second voxel of [pair]. *)
Lemma voxels_inside_camera_sphere_witness :
  let camera := getCameraSetup (cameraOffset Demo.pair) in
  let centre :=
    position
      (placeMesh (centreOffset 2) (centreOffset 1) (centreOffset 1) (1, 0, 0)
         (mkMesh "" true (Vector3.mk 0 0 0) false)) in
  let dx := (Vector3.x centre - Vector3.x (target camera))%Q in
  let dy := (Vector3.y centre - Vector3.y (target camera))%Q in
  let dz := (Vector3.z centre - Vector3.z (target camera))%Q in
  contains Demo.pair (1, 0, 0) = true ∧
  (dx * dx + dy * dy + dz * dz < radius camera * radius camera)%Q.
Proof.
  cbn zeta. split; [reflexivity|].
  apply (voxels_inside_camera_sphere Demo.pair (1, 0, 0)). reflexivity.
Defined.
